(** * vibrate.py: the vibration simulator, embedded and verified

    A shallow embedding of [src/vibrate.py].  Python's primitives that the
    program uses (str, float, int, print, time.sleep, sys.exit, argparse's
    choice check) come first, then the intensity catalog, the simulator's
    three methods and [main], then the theorems.

    Left out: the console set-up the module does on win32 when it is
    imported, what argparse writes on stderr, and [--help]. *)

From Stdlib Require Import ZArith List String Ascii Bool Lia.
From Stdlib Require Import DecimalString.
From Stdlib Require Import Floats.SpecFloat.
Import ListNotations.

Local Open Scope string_scope.
Local Open Scope Z_scope.

(** ** Python values *)

Module Py.

(** *** str

    A [str] is held as its UTF-8 text, which is what reaches the terminal:
    the program runs with a UTF-8 [sys.stdout]. *)

Definition LF : string := String "010"%char EmptyString.
Definition ESC : string := String "027"%char EmptyString.

Definition bytes (l : list nat) : string :=
  string_of_list_ascii (map ascii_of_nat l).

(** [s * n]: [n] copies of [s], none when [n <= 0]. *)
Fixpoint str_repeat (s : string) (n : nat) : string :=
  match n with
  | O => ""
  | S k => s ++ str_repeat s k
  end.

Definition str_mul (s : string) (n : Z) : string := str_repeat s (Z.to_nat n).

(** [str(n)] as an f-string field prints it: decimal, with a minus sign. *)
Definition str_of_int (n : Z) : string := NilEmpty.string_of_int (Z.to_int n).

(** [s.split(',')]: never empty; [''.split(',')] is [['']]. *)
Fixpoint split_comma (s : string) : list string :=
  match s with
  | EmptyString => [""]
  | String c rest =>
      if Ascii.eqb c ","%char then "" :: split_comma rest
      else match split_comma rest with
           | [] => [String c ""]
           | tok :: toks => String c tok :: toks
           end
  end.

(** The code points [str.isspace] accepts, in UTF-8: U+0009..U+000D,
    U+001C..U+0020, U+0085, U+00A0, U+1680, U+2000..U+200A, U+2028, U+2029,
    U+202F, U+205F, U+3000. *)
Definition whitespace : list string :=
  (map (fun c => bytes [c]) [9; 10; 11; 12; 13; 28; 29; 30; 31; 32]
   ++ [bytes [194; 133]; bytes [194; 160]; bytes [225; 154; 128]]
   ++ map (fun c => bytes [226; 128; c])
        [128; 129; 130; 131; 132; 133; 134; 135; 136; 137; 138; 168; 169; 175]
   ++ [bytes [226; 129; 159]; bytes [227; 128; 128]])%nat%list.

Fixpoint drop (n : nat) (s : string) : string :=
  match n, s with
  | S k, String _ rest => drop k rest
  | _, _ => s
  end.

(** The whitespace character [s] starts with, if it starts with one. *)
Definition leading_space (s : string) : option string :=
  find (fun ws => prefix ws s) whitespace.

(** [s.lstrip()]; [fuel] bounds the characters removed and [length s] is
    enough, each removal taking at least one byte. *)
Fixpoint lstrip_fuel (fuel : nat) (s : string) : string :=
  match fuel with
  | O => s
  | S k => match leading_space s with
           | Some ws => lstrip_fuel k (drop (String.length ws) s)
           | None => s
           end
  end.

Definition lstrip (s : string) : string := lstrip_fuel (String.length s) s.

Definition rev_string (s : string) : string :=
  string_of_list_ascii (rev (list_ascii_of_string s)).

Definition trailing_space (s : string) : option string :=
  find (fun ws => prefix (rev_string ws) (rev_string s)) whitespace.

Fixpoint rstrip_fuel (fuel : nat) (s : string) : string :=
  match fuel with
  | O => s
  | S k => match trailing_space s with
           | Some ws =>
               rstrip_fuel k (substring 0 (String.length s - String.length ws) s)
           | None => s
           end
  end.

Definition rstrip (s : string) : string := rstrip_fuel (String.length s) s.

(** [s.strip()] *)
Definition strip (s : string) : string := rstrip (lstrip s).

(** [s.upper()] on ASCII text, which is all the catalog's names hold. *)
Definition upper_char (c : ascii) : ascii :=
  let n := nat_of_ascii c in
  if ((97 <=? n) && (n <=? 122))%nat then ascii_of_nat (n - 32) else c.

Fixpoint upper (s : string) : string :=
  match s with
  | EmptyString => EmptyString
  | String c rest => String (upper_char c) (upper rest)
  end.

(** *** Exceptions *)

Inductive exn : Type :=
  | SystemExit (status : Z)
  | ValueError
  | OverflowError
  | ZeroDivisionError
  | KeyError (key : string).

(** *** float: IEEE 754 binary64 *)

Definition float : Type := spec_float.

Definition prec : Z := 53.
Definition emax : Z := 1024.

(** [float(n)] for an int [n]: the nearest double, OverflowError beyond. *)
Definition float_of_int (n : Z) : exn + float :=
  match binary_normalize prec emax n 0 false with
  | S754_infinity _ => inl OverflowError
  | x => inr x
  end.

(** The double a literal [n / 10^k] written in decimal denotes: the one
    nearest to the quotient of the two integers. *)
Definition literal (n : Z) (pow10 : Z) : float :=
  SFdiv prec emax (binary_normalize prec emax n 0 false)
                  (binary_normalize prec emax pow10 0 false).

(** [x * n], float by int. *)
Definition mul_int (x : float) (n : Z) : exn + float :=
  match float_of_int n with
  | inl e => inl e
  | inr y => inr (SFmul prec emax x y)
  end.

(** [x / n], float by int. *)
Definition div_int (x : float) (n : Z) : exn + float :=
  match float_of_int n with
  | inl e => inl e
  | inr y => if Z.eqb n 0 then inl ZeroDivisionError
             else inr (SFdiv prec emax x y)
  end.

(** [int(x)]: towards zero. *)
Definition int (x : float) : exn + Z :=
  match x with
  | S754_zero _ => inr 0
  | S754_infinity _ => inl OverflowError
  | S754_nan => inl ValueError
  | S754_finite s m e =>
      let mag := match e with
                 | Zneg p => Z.shiftr (Zpos m) (Zpos p)
                 | _ => Z.shiftl (Zpos m) e
                 end in
      inr (if s then - mag else mag)
  end.

End Py.

(** ** The process: standard output, the clock, exceptions *)

Module Proc.
Import Py.

(** What a run acts on.  [stdout] is every byte written to [sys.stdout] so
    far and [shown] how many of them there were at the last call of
    [sys.stdout.flush()], whatever the stream's own buffering has pushed out
    besides; [naps] logs the argument of each [time.sleep]; [clock] is the
    wall clock in nanoseconds and [lag] what the scheduler adds to each
    sleep to come. *)
Record world : Type := World {
  stdout : string;
  shown : nat;
  naps : list float;
  clock : Z;
  lag : list N
}.

(** A statement: it runs on a world, leaves a world, and returns a value or
    raises. *)
Definition M (A : Type) : Type := world -> (exn + A) * world.

Definition ret {A : Type} (a : A) : M A := fun w => (inr a, w).

Definition raise {A : Type} (e : exn) : M A := fun w => (inl e, w).

Definition bind {A B : Type} (m : M A) (k : A -> M B) : M B :=
  fun w => match m w with
           | (inl e, w') => (inl e, w')
           | (inr a, w') => k a w'
           end.

(** A pure computation that may raise. *)
Definition lift {A : Type} (r : exn + A) : M A :=
  match r with
  | inl e => raise e
  | inr a => ret a
  end.

Declare Scope proc_scope.
Delimit Scope proc_scope with proc.
Notation "x <- m ;; k" := (bind m (fun x => k))
  (at level 61, m at next level, right associativity) : proc_scope.
Notation "m ;; k" := (bind m (fun _ => k))
  (at level 61, right associativity) : proc_scope.
Local Open Scope proc_scope.

(** [sys.stdout.write(s)] *)
Definition write (s : string) : M unit :=
  fun w => (inr tt, World (stdout w ++ s) (shown w) (naps w) (clock w) (lag w)).

(** [sys.stdout.flush()] *)
Definition flush : M unit :=
  fun w => (inr tt, World (stdout w) (String.length (stdout w)) (naps w)
                          (clock w) (lag w)).

(** [print(s)] *)
Definition print (s : string) : M unit := write (s ++ LF).

(** [sys.exit(status)] *)
Definition sys_exit {A : Type} (status : Z) : M A := raise (SystemExit status).

Definition giga : float := binary_normalize prec emax 1000000000 0 false.

(** What [time.sleep(secs)] raises instead of sleeping: ValueError for a NaN
    and for a negative length, OverflowError for a length that does not fit
    the 64-bit nanosecond timer. *)
Definition sleep_check (secs : float) : option exn :=
  match secs with
  | S754_nan => Some ValueError
  | _ =>
      match int (SFmul prec emax secs giga) with
      | inl _ => Some OverflowError
      | inr ns =>
          if (ns <? - 2 ^ 63) || (2 ^ 63 <=? ns) then Some OverflowError
          else if SFltb secs (S754_zero false) then Some ValueError
          else None
      end
  end.

(** A float as a whole number, away from zero: how the timer rounds a
    timeout. *)
Definition round_up (x : float) : exn + Z :=
  match x with
  | S754_zero _ => inr 0
  | S754_infinity _ => inl OverflowError
  | S754_nan => inl ValueError
  | S754_finite s m e =>
      let mag := match e with
                 | Zneg p => Z.shiftr (Zpos m + 2 ^ Zpos p - 1) (Zpos p)
                 | _ => Z.shiftl (Zpos m) e
                 end in
      inr (if s then - mag else mag)
  end.

Definition nanoseconds (secs : float) : Z :=
  match round_up (SFmul prec emax secs giga) with
  | inl _ => 0
  | inr ns => ns
  end.

(** [time.sleep(secs)]: the clock moves on by the length asked for, rounded
    up to whole nanoseconds, and by whatever the scheduler adds. *)
Definition sleep (secs : float) : M unit :=
  fun w => match sleep_check secs with
           | Some e => (inl e, w)
           | None =>
               (inr tt,
                World (stdout w) (shown w) (naps w ++ [secs])
                      (clock w + nanoseconds secs + Z.of_N (hd 0%N (lag w)))
                      (tl (lag w)))
           end.

(** [for x in xs: body(x)] *)
Fixpoint for_each {A : Type} (xs : list A) (body : A -> M unit) : M unit :=
  match xs with
  | [] => ret tt
  | x :: rest => body x ;; for_each rest body
  end.

(** [range(lo, hi)] *)
Definition range (lo hi : Z) : list Z :=
  map (fun k => lo + Z.of_nat k) (seq 0 (Z.to_nat (hi - lo))).

(** [enumerate(xs)] *)
Definition enumerate {A : Type} (xs : list A) : list (Z * A) :=
  combine (range 0 (Z.of_nat (List.length xs))) xs.

(** The status the process ends with: 0 when [main] returns, the argument
    of [sys.exit], 1 for any other exception that nothing catches. *)
Definition exit_status {A : Type} (r : exn + A) : Z :=
  match r with
  | inr _ => 0
  | inl (SystemExit status) => status
  | inl _ => 1
  end.

End Proc.

(** ** The intensity catalog *)

Import Py Proc.
Local Open Scope proc_scope.

Inductive VibrationIntensity : Type := LIGHT | MEDIUM | HEAVY.

Definition intensity_name (i : VibrationIntensity) : string :=
  match i with
  | LIGHT => "light"
  | MEDIUM => "medium"
  | HEAVY => "heavy"
  end.

Definition duration (i : VibrationIntensity) : float :=
  match i with
  | LIGHT => literal 1 10
  | MEDIUM => literal 3 10
  | HEAVY => literal 5 10
  end.

Definition symbol (i : VibrationIntensity) : string :=
  match i with
  | LIGHT => "~"
  | MEDIUM => "≈"
  | HEAVY => "≋"
  end.

Definition block (i : VibrationIntensity) : string :=
  match i with
  | LIGHT => "░"
  | MEDIUM => "▒"
  | HEAVY => "▓"
  end.

Definition VibrationIntensity_eqb (a b : VibrationIntensity) : bool :=
  match a, b with
  | LIGHT, LIGHT | MEDIUM, MEDIUM | HEAVY, HEAVY => true
  | _, _ => false
  end.

(** ** VibrationSimulator *)

Module VibrationSimulator.

Definition colors : list (string * string) :=
  [ ("reset", ESC ++ "[0m");
    ("blue", ESC ++ "[94m");
    ("green", ESC ++ "[92m");
    ("yellow", ESC ++ "[93m");
    ("red", ESC ++ "[91m");
    ("bold", ESC ++ "[1m");
    ("purple", ESC ++ "[95m") ].

(** [d.get(key, default)] *)
Definition dict_get (d : list (string * string)) (key default : string) : string :=
  match find (fun kv => String.eqb (fst kv) key) d with
  | Some kv => snd kv
  | None => default
  end.

Definition color (text color_name : string) : string :=
  dict_get colors color_name "" ++ text ++ dict_get colors "reset" "".

(** [int(duration * 10)] *)
Definition steps (duration : float) : exn + Z :=
  match mul_int duration 10 with
  | inl e => inl e
  | inr x => int x
  end.

Definition _animate_vibration (duration : float) : M unit :=
  steps <- lift (steps duration) ;;
  for_each (range 0 steps) (fun _ =>
    write "." ;;
    flush ;;
    pause <- lift (div_int duration steps) ;;
    sleep pause) ;;
  print "".

(** [int(intensity.duration * 60)] *)
Definition bar_length (intensity : VibrationIntensity) : exn + Z :=
  match mul_int (duration intensity) 60 with
  | inl e => inl e
  | inr x => int x
  end.

(** The bar in its colour, as both methods build it. *)
Definition colored_bar (intensity : VibrationIntensity) (bar : string) : string :=
  if VibrationIntensity_eqb intensity LIGHT then color bar "green"
  else if VibrationIntensity_eqb intensity MEDIUM then color bar "yellow"
  else color bar "red".

Definition vibrate (intensity : VibrationIntensity) (count : Z) : M unit :=
  print (color "🔊 Vibration Simulator" "bold") ;;
  print (color (str_mul "━" 40) "blue") ;;
  for_each (range 1 (count + 1)) (fun i =>
    bar_length <- lift (bar_length intensity) ;;
    let bar := str_mul (block intensity) bar_length in
    print ("[" ++ str_of_int i ++ "/" ++ str_of_int count ++ "] "
           ++ color (upper (intensity_name intensity)) "bold" ++ ": "
           ++ colored_bar intensity bar) ;;
    _animate_vibration (duration intensity) ;;
    if i <? count then sleep (literal 2 10) else ret tt) ;;
  print (color (str_mul "━" 40) "blue") ;;
  print (color "✅ Vibration complete!" "green").

Definition play_pattern (pattern : list VibrationIntensity) : M unit :=
  print (color "🎵 Playing vibration pattern..." "purple") ;;
  print (color (str_mul "━" 40) "blue") ;;
  for_each (enumerate pattern) (fun '(index, intensity) =>
    print (color (LF ++ "Step " ++ str_of_int (index + 1) ++ "/"
                  ++ str_of_int (Z.of_nat (List.length pattern)) ++ ": "
                  ++ intensity_name intensity) "bold") ;;
    bar_length <- lift (bar_length intensity) ;;
    let bar := str_mul (block intensity) bar_length in
    print (colored_bar intensity bar) ;;
    _animate_vibration (duration intensity) ;;
    if index <? Z.of_nat (List.length pattern) - 1
    then sleep (literal 3 10) else ret tt) ;;
  print (color (str_mul (LF ++ "━") 40) "blue") ;;
  print (color "✅ Pattern complete!" "green").

End VibrationSimulator.

(** ** main *)

Import VibrationSimulator.

(** What the command line gives each flag, [None] for a flag left out.
    [--count] is held as the integer its text denotes: argparse's
    [type=int] conversion is outside this model. *)
Record cmdline : Type := Cmdline {
  given_intensity : option string;
  given_count : option Z;
  given_pattern : option string
}.

(** The namespace [parse_args] returns. *)
Record Namespace : Type := Args {
  intensity : string;
  count : Z;
  pattern : option string
}.

Definition choices : list string := ["light"; "medium"; "heavy"].

(** [parser.parse_args()]: defaults for the flags left out; a value of
    [--intensity] outside [choices] is [parser.error], which prints the
    usage on stderr and exits with status 2. *)
Definition parse_args (cl : cmdline) : M Namespace :=
  let intensity := match given_intensity cl with Some s => s | None => "medium" end in
  let count := match given_count cl with Some n => n | None => 1 end in
  if existsb (String.eqb intensity) choices
  then ret (Args intensity count (given_pattern cl))
  else sys_exit 2.

(** Truth value of [args.pattern]: [None] and [''] are false. *)
Definition truthy (p : option string) : bool :=
  match p with
  | None => false
  | Some s => negb (String.eqb s "")
  end.

(** The loop over [pattern_names], [pattern] being the list built so far. *)
Fixpoint collect (pattern_names : list string) (pattern : list VibrationIntensity)
  : M (list VibrationIntensity) :=
  match pattern_names with
  | [] => ret pattern
  | name :: rest =>
      if String.eqb name "light" then collect rest (pattern ++ [LIGHT])
      else if String.eqb name "medium" then collect rest (pattern ++ [MEDIUM])
      else if String.eqb name "heavy" then collect rest (pattern ++ [HEAVY])
      else print ("❌ Error: Invalid intensity '" ++ name ++ "' in pattern") ;;
           sys_exit 1
  end.

Definition intensity_map : list (string * VibrationIntensity) :=
  [("light", LIGHT); ("medium", MEDIUM); ("heavy", HEAVY)].

(** [intensity_map[key]] *)
Definition subscript (key : string) : exn + VibrationIntensity :=
  match find (fun kv => String.eqb (fst kv) key) intensity_map with
  | Some kv => inr (snd kv)
  | None => inl (KeyError key)
  end.

(** [main], "Validate count". *)
Definition validate_count (args : Namespace) : M unit :=
  if count args <? 1
  then print "❌ Error: Count must be a positive number" ;; sys_exit 1
  else ret tt.

(** [[p.strip() for p in s.split(',')]] *)
Definition pattern_names (s : string) : list string := map strip (split_comma s).

(** [main], "Handle pattern mode" and "Single intensity mode". *)
Definition dispatch (args : Namespace) : M unit :=
  if truthy (pattern args)
  then
    pattern <- collect (pattern_names (match pattern args with
                                       | Some s => s
                                       | None => ""
                                       end)) [] ;;
    play_pattern pattern
  else
    intensity <- lift (subscript (intensity args)) ;;
    vibrate intensity (count args).

(** [main] from the namespace on. *)
Definition run (args : Namespace) : M unit :=
  validate_count args ;;
  dispatch args.

Definition main (cl : cmdline) : M unit :=
  args <- parse_args cl ;;
  run args.

(** A world nothing has happened in yet. *)
Definition fresh : world := World "" 0 [] 0 [].

(** * Specification vocabulary *)

(** The pieces of a text, put end to end. *)
Definition join (pieces : list string) : string := fold_right append "" pieces.

(** [yields m r t]: from any world, [m] ends with [r] and has appended
    exactly [t] to standard output. *)
Definition yields {A : Type} (m : M A) (r : exn + A) (t : string) : Prop :=
  forall w, fst (m w) = r /\ stdout (snd (m w)) = stdout w ++ t.

(** A statement whose result and output are the same in every world:
    neither depends on the clock, the scheduler or what was printed
    before. *)
Definition oblivious {A : Type} (m : M A) : Prop :=
  exists r t, yields m r t.

(** [math.floor(x)], the spec's rounding, next to [int]. *)
Definition floor (x : float) : exn + Z :=
  match x with
  | S754_zero _ => inr 0
  | S754_infinity _ => inl OverflowError
  | S754_nan => inl ValueError
  | S754_finite s m e =>
      let n := if s then Zneg m else Zpos m in
      inr (match e with
           | Zneg p => n / 2 ^ Zpos p
           | _ => n * 2 ^ e
           end)
  end.

(** Fill characters in the bar of an intensity. *)
Definition cells (i : VibrationIntensity) : nat :=
  match i with
  | LIGHT => 6
  | MEDIUM => 18
  | HEAVY => 30
  end.

(** Dots in the animation of an intensity. *)
Definition dots (i : VibrationIntensity) : nat :=
  match i with
  | LIGHT => 1
  | MEDIUM => 3
  | HEAVY => 5
  end.

Definition hue (i : VibrationIntensity) : string :=
  match i with
  | LIGHT => "green"
  | MEDIUM => "yellow"
  | HEAVY => "red"
  end.

(** The bar as the terminal gets it. *)
Definition bar_text (i : VibrationIntensity) : string :=
  color (str_repeat (block i) (cells i)) (hue i).

(** The animation as the terminal gets it. *)
Definition animation_text (i : VibrationIntensity) : string :=
  str_repeat "." (dots i) ++ LF.

Definition rule : string := color (str_repeat "━" 40) "blue" ++ LF.

(** Repetition [k] of [count] in [vibrate]. *)
Definition repetition_text (i : VibrationIntensity) (count k : Z) : string :=
  (("[" ++ str_of_int k ++ "/" ++ str_of_int count ++ "] "
    ++ color (upper (intensity_name i)) "bold" ++ ": " ++ bar_text i) ++ LF)
  ++ animation_text i.

(** All that [vibrate] prints. *)
Definition vibrate_text (i : VibrationIntensity) (count : Z) : string :=
  (color "🔊 Vibration Simulator" "bold" ++ LF)
  ++ rule
  ++ join (map (repetition_text i count) (range 1 (count + 1)))
  ++ rule
  ++ (color "✅ Vibration complete!" "green" ++ LF).

(** The header of step [k] of [n] in [play_pattern]. *)
Definition step_header (n k : Z) (i : VibrationIntensity) : string :=
  color (LF ++ "Step " ++ str_of_int k ++ "/" ++ str_of_int n ++ ": "
         ++ intensity_name i) "bold" ++ LF.

(** Step [index + 1] of [n]: header, bar, animation. *)
Definition step_text (n : Z) (step : Z * VibrationIntensity) : string :=
  step_header n (fst step + 1) (snd step)
  ++ (bar_text (snd step) ++ LF)
  ++ animation_text (snd step).

Definition step_texts (pattern : list VibrationIntensity) : list string :=
  map (step_text (Z.of_nat (List.length pattern))) (enumerate pattern).

(** All that [play_pattern] prints. *)
Definition pattern_text (pattern : list VibrationIntensity) : string :=
  (color "🎵 Playing vibration pattern..." "purple" ++ LF)
  ++ rule
  ++ join (step_texts pattern)
  ++ (color (str_repeat (LF ++ "━") 40) "blue" ++ LF)
  ++ (color "✅ Pattern complete!" "green" ++ LF).

Definition count_error : string :=
  "❌ Error: Count must be a positive number" ++ LF.

Definition pattern_error (name : string) : string :=
  "❌ Error: Invalid intensity '" ++ name ++ "' in pattern" ++ LF.

(** The world after [t] has been written and nothing else has happened. *)
Definition printed (w : world) (t : string) : world :=
  World (stdout w ++ t) (shown w) (naps w) (clock w) (lag w).

(** One of the three names. *)
Definition known (name : string) : bool := existsb (String.eqb name) choices.

(** The value of each flag with its default filled in. *)
Definition intensity_given (cl : cmdline) : string :=
  match given_intensity cl with Some s => s | None => "medium" end.

Definition count_given (cl : cmdline) : Z :=
  match given_count cl with Some n => n | None => 1 end.

(** [names] and [pattern] name the same intensities in the same order. *)
Definition spells (names : list string) (pattern : list VibrationIntensity) : Prop :=
  names = map intensity_name pattern.

(** [rests m a ns]: from any world, [m] returns [a] and has asked
    [time.sleep] for exactly the lengths [ns], in that order. *)
Definition rests {A : Type} (m : M A) (a : A) (ns : list float) : Prop :=
  forall w, fst (m w) = inr a /\ naps (snd (m w)) = (naps w ++ ns)%list.

(** The sleep after each dot of an intensity: [duration / steps]. *)
Definition tick (i : VibrationIntensity) : float :=
  match div_int (duration i) (Z.of_nat (dots i)) with
  | inr pause => pause
  | inl _ => S754_nan
  end.

(** The sleeps of one animation. *)
Definition ticks (i : VibrationIntensity) : list float :=
  repeat (tick i) (dots i).

(** The sleeps of [vibrate] for a count of 1 or more: after every
    repetition but the last, a pause of 0.2. *)
Definition vibrate_naps (i : VibrationIntensity) (count : Z) : list float :=
  (List.concat (repeat (ticks i ++ [literal 2 10]) (Z.to_nat (count - 1)))
   ++ ticks i)%list.

(** The sleeps of [play_pattern]: after every step but the last, a pause
    of 0.3. *)
Fixpoint pattern_naps (pattern : list VibrationIntensity) : list float :=
  match pattern with
  | [] => []
  | i :: rest =>
      match rest with
      | [] => ticks i
      | _ :: _ => (ticks i ++ literal 3 10 :: pattern_naps rest)%list
      end
  end.

Definition spaces (n : nat) : string := str_repeat " " n.

(** A name written with spaces before it and after it. *)
Definition padded (tok : nat * VibrationIntensity * nat) : string :=
  spaces (fst (fst tok)) ++ intensity_name (snd (fst tok)) ++ spaces (snd tok).

(** [','.join(toks)] *)
Fixpoint comma_join (toks : list string) : string :=
  match toks with
  | [] => ""
  | tok :: rest =>
      match rest with
      | [] => tok
      | _ :: _ => tok ++ "," ++ comma_join rest
      end
  end.

(** No comma in [s]. *)
Fixpoint no_comma (s : string) : bool :=
  match s with
  | EmptyString => true
  | String c rest => negb (Ascii.eqb c ","%char) && no_comma rest
  end.

(** * Properties *)

(** ** Text *)

Lemma append_assoc (a b c : string) : (a ++ b) ++ c = a ++ (b ++ c).
Proof. induction a as [|x a IH]; simpl; [reflexivity | now rewrite IH]. Qed.

Lemma append_nil_r (a : string) : a ++ "" = a.
Proof. induction a as [|x a IH]; simpl; [reflexivity | now rewrite IH]. Qed.

Lemma append_inv_head (a b c : string) : a ++ b = a ++ c -> b = c.
Proof. induction a as [|x a IH]; simpl; [auto | intros [= H]; auto]. Qed.

Lemma join_app (xs ys : list string) : join (xs ++ ys) = join xs ++ join ys.
Proof.
  induction xs as [|x xs IH]; simpl; [reflexivity|].
  now rewrite IH, append_assoc.
Qed.

Lemma join_const {A : Type} (s : string) (xs : list A) :
  join (map (fun _ => s) xs) = str_repeat s (List.length xs).
Proof. induction xs as [|x xs IH]; simpl; [reflexivity | now rewrite IH]. Qed.

Lemma range_length (lo hi : Z) : List.length (range lo hi) = Z.to_nat (hi - lo).
Proof. unfold range. now rewrite length_map, length_seq. Qed.

Lemma range_empty (lo hi : Z) : hi <= lo -> range lo hi = [].
Proof.
  intros H. unfold range.
  replace (Z.to_nat (hi - lo)) with 0%nat by lia. reflexivity.
Qed.

Lemma range_In (lo hi k : Z) : In k (range lo hi) <-> lo <= k < hi.
Proof.
  unfold range. rewrite in_map_iff. split.
  - intros (n & <- & Hn). apply in_seq in Hn. lia.
  - intros Hk. exists (Z.to_nat (k - lo)). split; [lia|].
    apply in_seq. lia.
Qed.

(** ** What a statement does to standard output *)

Section Yields.
Context {A B : Type}.

Lemma yields_ret (a : A) : yields (ret a) (inr a) "".
Proof. intros w. simpl. now rewrite append_nil_r. Qed.

Lemma yields_raise (e : exn) : yields (@raise A e) (inl e) "".
Proof. intros w. simpl. now rewrite append_nil_r. Qed.

Lemma yields_lift (r : exn + A) : yields (lift r) r "".
Proof. destruct r; [apply yields_raise | apply yields_ret]. Qed.

Lemma yields_bind (m : M A) (k : A -> M B) a t r t' :
  yields m (inr a) t -> yields (k a) r t' -> yields (bind m k) r (t ++ t').
Proof.
  intros Hm Hk w. unfold bind.
  destruct (Hm w) as [Hr Ho]. destruct (m w) as [[e|a'] w']; simpl in *.
  - discriminate.
  - injection Hr as ->. destruct (Hk w') as [Hr' Ho'].
    split; [assumption|]. now rewrite Ho', Ho, append_assoc.
Qed.

Lemma yields_bind_raise (m : M A) (k : A -> M B) e t :
  yields m (inl e) t -> yields (bind m k) (inl e) t.
Proof.
  intros Hm w. unfold bind.
  destruct (Hm w) as [Hr Ho]. destruct (m w) as [[e'|a'] w']; simpl in *.
  - injection Hr as ->. now split.
  - discriminate.
Qed.

Lemma yields_unique (m : M A) r r' t t' :
  yields m r t -> yields m r' t' -> r = r' /\ t = t'.
Proof.
  intros H H'. destruct (H fresh) as [Hr Ho], (H' fresh) as [Hr' Ho'].
  split; [congruence|]. rewrite Ho in Ho'. now apply append_inv_head in Ho'.
Qed.

End Yields.

Lemma yields_write (s : string) : yields (write s) (inr tt) s.
Proof. intros w. now simpl. Qed.

Lemma yields_print (s : string) : yields (print s) (inr tt) (s ++ LF).
Proof. apply yields_write. Qed.

Lemma yields_flush : yields flush (inr tt) "".
Proof. intros w. simpl. now rewrite append_nil_r. Qed.

Lemma yields_sleep (secs : float) :
  sleep_check secs = None -> yields (sleep secs) (inr tt) "".
Proof.
  intros H w. unfold sleep. rewrite H. simpl. now rewrite append_nil_r.
Qed.

Lemma yields_for_each {A : Type} (xs : list A) (body : A -> M unit)
      (text : A -> string) :
  (forall x, In x xs -> yields (body x) (inr tt) (text x)) ->
  yields (for_each xs body) (inr tt) (join (map text xs)).
Proof.
  induction xs as [|x xs IH]; intros H; simpl.
  - apply yields_ret.
  - eapply yields_bind.
    + apply H. now left.
    + apply IH. intros y Hy. apply H. now right.
Qed.

(** ** Floats of the catalog *)

Lemma steps_catalog (i : VibrationIntensity) :
  steps (duration i) = inr (Z.of_nat (dots i)).
Proof. destruct i; vm_compute; reflexivity. Qed.

Lemma bar_length_catalog (i : VibrationIntensity) :
  bar_length i = inr (Z.of_nat (cells i)).
Proof. destruct i; vm_compute; reflexivity. Qed.

Lemma pause_catalog (i : VibrationIntensity) :
  exists pause,
    div_int (duration i) (Z.of_nat (dots i)) = inr pause
    /\ sleep_check pause = None.
Proof. destruct i; eexists; (split; [vm_compute; reflexivity|]); vm_compute; reflexivity. Qed.

Lemma sleep_check_fifth : sleep_check (literal 2 10) = None.
Proof. vm_compute. reflexivity. Qed.

Lemma sleep_check_three_tenths : sleep_check (literal 3 10) = None.
Proof. vm_compute. reflexivity. Qed.

(** On a float whose floor is 0, [int] is 0 as well. *)
Lemma floor_zero_int (x : float) : floor x = inr 0 -> int x = inr 0.
Proof.
  destruct x as [s|s| |s m e]; simpl; try congruence.
  intros [= H]. f_equal.
  destruct e as [|p|p].
  - destruct s; simpl in H; lia.
  - exfalso. destruct s; [assert (Zneg m * 2 ^ Zpos p < 0) | assert (0 < Zpos m * 2 ^ Zpos p)];
      try lia; apply Z.mul_neg_pos || apply Z.mul_pos_pos; try lia;
      apply Z.pow_pos_nonneg; lia.
  - assert (Hp : 0 < 2 ^ Zpos p) by (apply Z.pow_pos_nonneg; lia).
    destruct s.
    + exfalso. assert (Zneg m / 2 ^ Zpos p < 0); [|lia].
      apply Z.div_lt_upper_bound; lia.
    + rewrite Z.shiftr_div_pow2 by lia. exact H.
Qed.

(** ** The animation *)

Lemma animate_yields (d : float) (n : Z) :
  steps d = inr n ->
  (0 < n -> exists pause, div_int d n = inr pause /\ sleep_check pause = None) ->
  yields (_animate_vibration d) (inr tt) (str_mul "." n ++ LF).
Proof.
  intros Hn Hpause. unfold _animate_vibration. rewrite Hn.
  replace (str_mul "." n ++ LF) with ("" ++ (str_mul "." n ++ ("" ++ LF)))
    by reflexivity.
  eapply yields_bind; [apply yields_lift|].
  eapply yields_bind; [|apply yields_print].
  unfold str_mul. replace (Z.to_nat n) with (List.length (range 0 n))
    by (rewrite range_length; f_equal; lia).
  rewrite <- join_const. apply yields_for_each.
  intros k Hk. apply range_In in Hk.
  destruct Hpause as (pause & Hdiv & Hok); [lia|].
  replace "." with ("." ++ ("" ++ ("" ++ ""))) at 2 by reflexivity.
  eapply yields_bind; [apply yields_write|].
  eapply yields_bind; [apply yields_flush|].
  rewrite Hdiv.
  eapply yields_bind; [apply yields_lift|].
  now apply yields_sleep.
Qed.

Lemma animate_catalog (i : VibrationIntensity) :
  yields (_animate_vibration (duration i)) (inr tt) (animation_text i).
Proof.
  unfold animation_text.
  replace (str_repeat "." (dots i)) with (str_mul "." (Z.of_nat (dots i)))
    by (unfold str_mul; now rewrite Nat2Z.id).
  apply animate_yields; [apply steps_catalog|].
  intros _. apply pause_catalog.
Qed.

(** ** The two renderers *)

Lemma yields_eq {A : Type} (m : M A) r t t' :
  yields m r t -> t = t' -> yields m r t'.
Proof. now intros H <-. Qed.

Lemma colored_bar_catalog (i : VibrationIntensity) :
  colored_bar i (str_mul (block i) (Z.of_nat (cells i))) = bar_text i.
Proof. destruct i; reflexivity. Qed.

Lemma pause_between (b : bool) (secs : float) :
  sleep_check secs = None ->
  yields (if b then sleep secs else ret tt) (inr tt) "".
Proof. intros H. destruct b; [now apply yields_sleep | apply yields_ret]. Qed.

Lemma vibrate_yields (i : VibrationIntensity) (count : Z) :
  yields (vibrate i count) (inr tt) (vibrate_text i count).
Proof.
  unfold vibrate, vibrate_text, rule.
  eapply yields_bind; [apply yields_print|].
  eapply yields_bind; [apply yields_print|].
  eapply yields_bind;
    [apply (yields_for_each _ _ (repetition_text i count))
    |eapply yields_bind; apply yields_print].
  intros k _. rewrite bar_length_catalog. unfold lift.
  eapply yields_eq.
  - eapply yields_bind; [apply yields_ret|].
    eapply yields_bind; [apply yields_print|].
    eapply yields_bind; [apply animate_catalog|].
    apply pause_between, sleep_check_fifth.
  - rewrite colored_bar_catalog, append_nil_r. reflexivity.
Qed.

Lemma play_pattern_yields (pattern : list VibrationIntensity) :
  yields (play_pattern pattern) (inr tt) (pattern_text pattern).
Proof.
  unfold play_pattern, pattern_text, rule, step_texts.
  eapply yields_bind; [apply yields_print|].
  eapply yields_bind; [apply yields_print|].
  eapply yields_bind;
    [apply (yields_for_each _ _ (step_text (Z.of_nat (List.length pattern))))
    |eapply yields_bind; apply yields_print].
  intros [index i] _. unfold step_text, step_header. cbn [fst snd].
  eapply yields_bind; [apply yields_print|].
  rewrite bar_length_catalog. unfold lift.
  eapply yields_eq.
  - eapply yields_bind; [apply yields_ret|].
    eapply yields_bind; [apply yields_print|].
    eapply yields_bind; [apply animate_catalog|].
    apply pause_between, sleep_check_three_tenths.
  - rewrite colored_bar_catalog, append_nil_r. reflexivity.
Qed.

(** ** Parsing a pattern *)

Lemma known_cases (name : string) :
  known name = true <-> name = "light" \/ name = "medium" \/ name = "heavy".
Proof.
  unfold known, choices. simpl. rewrite !orb_true_iff, !String.eqb_eq.
  intuition congruence.
Qed.

Lemma known_name (i : VibrationIntensity) : known (intensity_name i) = true.
Proof. now destruct i. Qed.

Lemma unknown_cases (name : string) :
  known name = false ->
  (name =? "light")%string = false /\ (name =? "medium")%string = false
  /\ (name =? "heavy")%string = false.
Proof.
  unfold known, choices. simpl. rewrite !orb_false_iff. tauto.
Qed.

(** Known names all the way: the loop returns the intensities they spell,
    after those it started with, and prints nothing. *)
Lemma collect_known (names : list string) :
  forallb known names = true ->
  exists pattern,
    spells names pattern
    /\ forall acc w, collect names acc w = (inr (acc ++ pattern)%list, w).
Proof.
  unfold spells. induction names as [|name rest IH]; simpl; intros H.
  - exists []. split; [reflexivity|]. intros acc w. now rewrite app_nil_r.
  - apply andb_true_iff in H as [Hname Hrest].
    destruct (IH Hrest) as (tail & Hspell & Hrun).
    apply known_cases in Hname as [-> | [-> | ->]].
    + exists (LIGHT :: tail). split; [simpl; congruence|].
      intros acc w. simpl. now rewrite Hrun, <- app_assoc.
    + exists (MEDIUM :: tail). split; [simpl; congruence|].
      intros acc w. simpl. now rewrite Hrun, <- app_assoc.
    + exists (HEAVY :: tail). split; [simpl; congruence|].
      intros acc w. simpl. now rewrite Hrun, <- app_assoc.
Qed.

(** An unknown name somewhere: the loop stops at the first one, prints the
    error that names it and exits with status 1. *)
Lemma collect_unknown (names : list string) :
  forallb known names = false ->
  exists before bad after,
    names = (before ++ bad :: after)%list
    /\ forallb known before = true
    /\ known bad = false
    /\ forall acc w,
         collect names acc w = (inl (SystemExit 1), printed w (pattern_error bad)).
Proof.
  induction names as [|name rest IH]; simpl; intros H; [discriminate|].
  destruct (known name) eqn:Hname.
  - simpl in H. destruct (IH H) as (before & bad & after & -> & Hb & Hbad & Hrun).
    exists (name :: before), bad, after. simpl. rewrite Hname.
    repeat split; try assumption.
    intros acc w. apply known_cases in Hname as [-> | [-> | ->]]; simpl; apply Hrun.
  - exists [], name, rest. repeat split; try assumption.
    intros acc w. destruct (unknown_cases _ Hname) as (-> & -> & ->).
    unfold bind, print, write, sys_exit, raise, printed, pattern_error. simpl.
    now rewrite !append_assoc.
Qed.

Lemma pattern_names_empty : pattern_names "" = [""].
Proof. reflexivity. Qed.

(** A pattern of known names only is not the empty string. *)
Lemma known_pattern_truthy (p : string) :
  forallb known (pattern_names p) = true -> truthy (Some p) = true.
Proof.
  intros H. simpl. destruct (String.eqb_spec p "") as [->|]; [|reflexivity].
  discriminate H.
Qed.

(** ** The count check *)

Lemma validate_count_small (args : Namespace) (w : world) :
  count args < 1 ->
  validate_count args w = (inl (SystemExit 1), printed w count_error).
Proof.
  intros H. unfold validate_count.
  replace (count args <? 1) with true by (symmetry; apply Z.ltb_lt; lia).
  reflexivity.
Qed.

Lemma validate_count_positive (args : Namespace) (w : world) :
  1 <= count args -> validate_count args w = (inr tt, w).
Proof.
  intros H. unfold validate_count.
  replace (count args <? 1) with false by (symmetry; apply Z.ltb_ge; lia).
  reflexivity.
Qed.

Lemma run_small (args : Namespace) (w : world) :
  count args < 1 ->
  run args w = (inl (SystemExit 1), printed w count_error).
Proof. intros H. unfold run, bind. now rewrite validate_count_small. Qed.

Lemma run_positive (args : Namespace) (w : world) :
  1 <= count args -> run args w = dispatch args w.
Proof. intros H. unfold run, bind. now rewrite validate_count_positive. Qed.

Lemma dispatch_known_pattern (args : Namespace) (p : string) :
  pattern args = Some p ->
  forallb known (pattern_names p) = true ->
  exists pat,
    spells (pattern_names p) pat
    /\ forall w, dispatch args w = play_pattern pat w.
Proof.
  intros Hp Hk. destruct (collect_known _ Hk) as (pat & Hspell & Hrun).
  exists pat. split; [assumption|]. intros w. unfold dispatch.
  rewrite Hp, (known_pattern_truthy _ Hk). unfold bind. now rewrite Hrun.
Qed.

Lemma dispatch_unknown_pattern (args : Namespace) (p : string) :
  pattern args = Some p ->
  p <> "" ->
  forallb known (pattern_names p) = false ->
  exists before bad after,
    pattern_names p = (before ++ bad :: after)%list
    /\ forallb known before = true
    /\ known bad = false
    /\ forall w,
         dispatch args w = (inl (SystemExit 1), printed w (pattern_error bad)).
Proof.
  intros Hp Hne Hk.
  destruct (collect_unknown _ Hk) as (before & bad & after & Hsplit & Hb & Hbad & Hrun).
  exists before, bad, after. repeat split; try assumption.
  intros w. unfold dispatch. rewrite Hp. simpl.
  replace (p =? "")%string with false by (symmetry; now apply String.eqb_neq).
  simpl. unfold bind. now rewrite Hrun.
Qed.

Lemma subscript_known (name : string) :
  known name = true -> exists i, intensity_name i = name /\ subscript name = inr i.
Proof.
  intros H. apply known_cases in H as [-> | [-> | ->]];
    [exists LIGHT | exists MEDIUM | exists HEAVY]; now split.
Qed.

Lemma dispatch_single (args : Namespace) (i : VibrationIntensity) :
  truthy (pattern args) = false ->
  subscript (intensity args) = inr i ->
  forall w, dispatch args w = vibrate i (count args) w.
Proof.
  intros Ht Hi w. unfold dispatch. rewrite Ht, Hi. reflexivity.
Qed.

Lemma main_accepted (cl : cmdline) (w : world) :
  known (intensity_given cl) = true ->
  main cl w = run (Args (intensity_given cl) (count_given cl) (given_pattern cl)) w.
Proof.
  intros H. unfold main, parse_args, bind.
  fold (intensity_given cl). fold (count_given cl).
  unfold known in H. now rewrite H.
Qed.

Lemma main_rejected (cl : cmdline) (w : world) :
  known (intensity_given cl) = false ->
  main cl w = (inl (SystemExit 2), w).
Proof.
  intros H. unfold main, parse_args, bind.
  fold (intensity_given cl). fold (count_given cl).
  unfold known in H. now rewrite H.
Qed.

(** ** Positions in a pattern *)

Lemma nth_error_numbered {A : Type} (xs : list A) (lo : Z) :
  forall (s k : nat) (x : A),
    nth_error xs k = Some x ->
    nth_error (combine (map (fun n => lo + Z.of_nat n) (seq s (List.length xs))) xs) k
    = Some (lo + Z.of_nat (s + k), x).
Proof.
  induction xs as [|y xs IH]; intros s [|k] x H; simpl in *; try discriminate.
  - injection H as ->. now rewrite Nat.add_0_r.
  - rewrite (IH (S s) k x H). do 2 f_equal. lia.
Qed.

Lemma nth_error_enumerate {A : Type} (xs : list A) (k : nat) (x : A) :
  nth_error xs k = Some x ->
  nth_error (enumerate xs) k = Some (Z.of_nat k, x).
Proof.
  intros H. unfold enumerate, range.
  rewrite Z.sub_0_r, Nat2Z.id.
  now rewrite (nth_error_numbered xs 0 0 k x H).
Qed.

Lemma enumerate_length {A : Type} (xs : list A) :
  List.length (enumerate xs) = List.length xs.
Proof.
  unfold enumerate. rewrite length_combine, range_length.
  rewrite Z.sub_0_r, Nat2Z.id. apply Nat.min_id.
Qed.

(** ** Statements that ignore the world *)

Lemma oblivious_ret {A : Type} (a : A) : oblivious (ret a).
Proof. eexists _, _. apply yields_ret. Qed.

Lemma oblivious_raise {A : Type} (e : exn) : oblivious (@raise A e).
Proof. eexists _, _. apply yields_raise. Qed.

Lemma oblivious_lift {A : Type} (r : exn + A) : oblivious (lift r).
Proof. eexists _, _. apply yields_lift. Qed.

Lemma oblivious_bind {A B : Type} (m : M A) (k : A -> M B) :
  oblivious m -> (forall a, oblivious (k a)) -> oblivious (bind m k).
Proof.
  intros (r & t & H) Hk. destruct r as [e|a].
  - exists (inl e), t. now apply yields_bind_raise.
  - destruct (Hk a) as (r' & t' & H'). exists r', (t ++ t').
    eapply yields_bind; eassumption.
Qed.

Lemma oblivious_for_each {A : Type} (xs : list A) (body : A -> M unit) :
  (forall x, oblivious (body x)) -> oblivious (for_each xs body).
Proof.
  intros H. induction xs as [|x xs IH]; simpl.
  - apply oblivious_ret.
  - apply oblivious_bind; [apply H | intros _; apply IH].
Qed.

Lemma oblivious_write (s : string) : oblivious (write s).
Proof. eexists _, _. apply yields_write. Qed.

Lemma oblivious_print (s : string) : oblivious (print s).
Proof. apply oblivious_write. Qed.

Lemma oblivious_flush : oblivious flush.
Proof. eexists _, _. apply yields_flush. Qed.

Lemma oblivious_sleep (secs : float) : oblivious (sleep secs).
Proof.
  exists (match sleep_check secs with Some e => inl e | None => inr tt end), "".
  intros w. unfold sleep. destruct (sleep_check secs); simpl;
    now rewrite append_nil_r.
Qed.

Create HintDb oblivious.

#[local] Hint Resolve oblivious_ret oblivious_raise oblivious_lift
  oblivious_write oblivious_print oblivious_flush oblivious_sleep : oblivious.

Ltac oblivious_steps :=
  repeat first
    [ progress auto with oblivious
    | apply oblivious_bind; [|intros ?]
    | apply oblivious_for_each; intros ?
    | match goal with
      | |- oblivious (if ?b then _ else _) => destruct b
      | |- oblivious (let '(_, _) := ?x in _) => destruct x
      | |- oblivious (sys_exit _) => apply oblivious_raise
      end ].

Lemma oblivious_animate (d : float) : oblivious (_animate_vibration d).
Proof. unfold _animate_vibration. oblivious_steps. Qed.

Lemma oblivious_vibrate (i : VibrationIntensity) (n : Z) : oblivious (vibrate i n).
Proof. eexists _, _. apply vibrate_yields. Qed.

Lemma oblivious_play_pattern (pattern : list VibrationIntensity) :
  oblivious (play_pattern pattern).
Proof. eexists _, _. apply play_pattern_yields. Qed.

Lemma oblivious_collect (names : list string) :
  forall acc, oblivious (collect names acc).
Proof.
  induction names as [|name rest IH]; intros acc; simpl.
  - apply oblivious_ret.
  - repeat match goal with
           | |- oblivious (if ?b then _ else _) => destruct b
           end; try apply IH.
    oblivious_steps.
Qed.

Lemma oblivious_run (args : Namespace) : oblivious (run args).
Proof.
  unfold run, validate_count, dispatch.
  apply oblivious_bind; [oblivious_steps|intros _].
  destruct (truthy (pattern args)).
  - apply oblivious_bind; [apply oblivious_collect|apply oblivious_play_pattern].
  - apply oblivious_bind; [apply oblivious_lift|intros i; apply oblivious_vibrate].
Qed.

Lemma oblivious_main (cl : cmdline) : oblivious (main cl).
Proof.
  unfold main, parse_args. apply oblivious_bind; [|apply oblivious_run].
  oblivious_steps.
Qed.

(** * The claims *)

(** ** Bars and animation *)


(** C4.  [_animate_vibration d] writes [steps d] dots and then one
    newline, provided each [time.sleep(d / steps)] of the loop is a sleep
    the timer accepts; for the catalog that is 1, 3 and 5 dots with nothing
    to assume, and each repetition of [vibrate] ends with them. *)
Theorem animation_writes_steps_dots :
  (forall d n,
      steps d = inr n ->
      (0 < n -> exists pause,
          div_int d n = inr pause /\ sleep_check pause = None) ->
      yields (_animate_vibration d) (inr tt) (str_mul "." n ++ LF))
  /\ (dots LIGHT = 1 /\ dots MEDIUM = 3 /\ dots HEAVY = 5)%nat
  /\ (forall i,
        (exists x, mul_int (duration i) 10 = inr x
                   /\ floor x = inr (Z.of_nat (dots i)))
        /\ steps (duration i) = inr (Z.of_nat (dots i))
        /\ yields (_animate_vibration (duration i)) (inr tt)
                  (str_repeat "." (dots i) ++ LF))
  /\ (forall i count k,
        repetition_text i count k
        = (("[" ++ str_of_int k ++ "/" ++ str_of_int count ++ "] "
            ++ color (upper (intensity_name i)) "bold" ++ ": " ++ bar_text i)
           ++ LF)
          ++ (str_repeat "." (dots i) ++ LF))
  /\ (forall i count, yields (vibrate i count) (inr tt) (vibrate_text i count)).
Proof.
  split; [exact animate_yields|]. split; [now repeat split|].
  split; [|split].
  - intros i. split; [|split].
    + destruct i; eexists; (split; [vm_compute; reflexivity|]);
        vm_compute; reflexivity.
    + apply steps_catalog.
    + apply animate_catalog.
  - reflexivity.
  - apply vibrate_yields.
Qed.

Lemma animation_writes_steps_dots_witness :
  steps (literal 3 10) = inr 3
  /\ yields (_animate_vibration (literal 3 10)) (inr tt) (str_mul "." 3 ++ LF).
Proof.
  split; [vm_compute; reflexivity|].
  apply (proj1 animation_writes_steps_dots (literal 3 10) 3).
  - vm_compute; reflexivity.
  - intros _. eexists. split; [vm_compute; reflexivity|].
    vm_compute; reflexivity.
Defined.

(** C5.  When [duration * 10] floors to 0 (or truncates to 0, which is what
    the code computes) the loop of [_animate_vibration] does not run: the
    newline is all that is written, nothing is flushed, no sleep is asked
    for, and the call returns, although [duration / 0] raises
    ZeroDivisionError wherever it is evaluated. *)
Theorem no_steps_no_division (d : float) :
  steps d = inr 0
  \/ (exists x, mul_int d 10 = inr x /\ floor x = inr 0) ->
  (forall w, _animate_vibration d w = (inr tt, printed w LF))
  /\ div_int d 0 = inl ZeroDivisionError.
Proof.
  intros H. split; [|reflexivity].
  assert (Hs : steps d = inr 0).
  { destruct H as [H|(x & Hx & Hf)]; [exact H|].
    unfold steps. rewrite Hx. now apply floor_zero_int. }
  intros w. unfold _animate_vibration. rewrite Hs. reflexivity.
Qed.

Lemma no_steps_no_division_witness :
  (forall w, _animate_vibration (literal 5 100) w = (inr tt, printed w LF))
  /\ div_int (literal 5 100) 0 = inl ZeroDivisionError.
Proof.
  apply (no_steps_no_division (literal 5 100)).
  left. vm_compute. reflexivity.
Defined.

(** C8.  [play_pattern] writes one step per element, in the order of the
    pattern: the step at (0-based) position [k], holding intensity [i],
    opens with the header [Step k+1/N: name of i], [N] being the length of
    the pattern.  For [[LIGHT; HEAVY]] the headers are [Step 1/2: light]
    and then [Step 2/2: heavy]. *)
Theorem pattern_headers_in_order (pattern : list VibrationIntensity) :
  yields (play_pattern pattern) (inr tt)
    ((color "🎵 Playing vibration pattern..." "purple" ++ LF)
     ++ rule
     ++ join (step_texts pattern)
     ++ (color (str_repeat (LF ++ "━") 40) "blue" ++ LF)
     ++ (color "✅ Pattern complete!" "green" ++ LF))
  /\ List.length (step_texts pattern) = List.length pattern
  /\ (forall k i,
        nth_error pattern k = Some i ->
        nth_error (step_texts pattern) k
        = Some ((color (LF ++ "Step " ++ str_of_int (Z.of_nat k + 1) ++ "/"
                        ++ str_of_int (Z.of_nat (List.length pattern)) ++ ": "
                        ++ intensity_name i) "bold" ++ LF)
                ++ (bar_text i ++ LF) ++ animation_text i))
  /\ map (fun step => substring 5 15 step) (step_texts [LIGHT; HEAVY])
     = ["Step 1/2: light"; "Step 2/2: heavy"].
Proof.
  split; [apply play_pattern_yields|]. split; [|split].
  - unfold step_texts. now rewrite length_map, enumerate_length.
  - intros k i H. unfold step_texts.
    rewrite nth_error_map, (nth_error_enumerate _ _ _ H). reflexivity.
  - reflexivity.
Qed.

Lemma pattern_headers_in_order_witness :
  nth_error (step_texts [LIGHT; HEAVY]) 1
  = Some ((color (LF ++ "Step 2/2: heavy") "bold" ++ LF)
          ++ (bar_text HEAVY ++ LF) ++ animation_text HEAVY).
Proof.
  apply (proj1 (proj2 (proj2 (pattern_headers_in_order [LIGHT; HEAVY]))) 1%nat HEAVY).
  reflexivity.
Defined.

(** ** The command line *)

(** C1, failing as stated: with [--count 0 --pattern light] the count check
    exits with status 1 after its own error line, and nothing of the
    pattern is played. *)
Lemma count_zero_blocks_pattern :
  main (Cmdline None (Some 0) (Some "light")) fresh
  = (inl (SystemExit 1), printed fresh count_error)
  /\ main (Cmdline None (Some 0) (Some "light")) fresh
     <> play_pattern [LIGHT] fresh.
Proof.
  split; [reflexivity|].
  intros H. apply (f_equal fst) in H. vm_compute in H. discriminate H.
Qed.

(** C1, amended.  A pattern whose names are all known is played whatever
    the namespace holds for the intensity and whatever the count is, as
    long as the count is at least 1: the run is [play_pattern] on the
    intensities the names spell, in their order.  So is every invocation
    with such a pattern whose [--intensity], if given, is one argparse
    accepts.  With a count below 1 the same run, and the same invocation,
    exits with status 1 and the count's error line is all it prints. *)
Theorem pattern_takes_precedence (p : string) :
  forallb known (pattern_names p) = true ->
  exists pat,
    spells (pattern_names p) pat
    /\ (forall name n,
          1 <= n ->
          (forall w, run (Args name n (Some p)) w = play_pattern pat w)
          /\ yields (run (Args name n (Some p))) (inr tt) (pattern_text pat))
    /\ (forall cl,
          given_pattern cl = Some p ->
          known (intensity_given cl) = true ->
          1 <= count_given cl ->
          forall w, main cl w = play_pattern pat w)
    /\ (forall name n,
          n < 1 ->
          forall w,
            run (Args name n (Some p)) w
            = (inl (SystemExit 1), printed w count_error))
    /\ (forall cl,
          given_pattern cl = Some p ->
          known (intensity_given cl) = true ->
          count_given cl < 1 ->
          forall w, main cl w = (inl (SystemExit 1), printed w count_error)).
Proof.
  intros Hk.
  destruct (collect_known _ Hk) as (pat & Hspell & _).
  assert (Hrun : forall args, pattern args = Some p -> 1 <= count args ->
                              forall w, run args w = play_pattern pat w).
  { intros args Hp Hc w.
    destruct (dispatch_known_pattern args p Hp Hk) as (pat' & Hspell' & Hrun).
    rewrite run_positive, Hrun by assumption.
    replace pat' with pat; [reflexivity|].
    unfold spells in *. rewrite Hspell in Hspell'.
    clear - Hspell'. revert pat' Hspell'.
    induction pat as [|i pat IH]; intros [|j pat'] H; simpl in H;
      try discriminate; [reflexivity|].
    injection H as Hname Hrest. f_equal; [|now apply IH].
    destruct i, j; (reflexivity || discriminate Hname). }
  exists pat. split; [assumption|]. split.
  - intros name n Hn. split.
    + intros w. now apply Hrun.
    + intros w. rewrite Hrun by (simpl; assumption || reflexivity).
      apply play_pattern_yields.
  - split; [|split].
    + intros cl Hp Hi Hc w. rewrite main_accepted by assumption.
      now apply Hrun.
    + intros name n Hn w. now apply run_small.
    + intros cl Hp Hi Hc w. rewrite main_accepted by assumption.
      now apply run_small.
Qed.

Lemma pattern_takes_precedence_witness :
  exists pat,
    spells (pattern_names "light, heavy") pat
    /\ (forall w, run (Args "heavy" 7 (Some "light, heavy")) w
                  = play_pattern pat w)
    /\ (forall w, main (Cmdline (Some "heavy") (Some 7) (Some "light, heavy")) w
                  = play_pattern pat w)
    /\ (forall w, run (Args "heavy" 0 (Some "light, heavy")) w
                  = (inl (SystemExit 1), printed w count_error))
    /\ (forall w, main (Cmdline (Some "heavy") (Some (-2)) (Some "light, heavy")) w
                  = (inl (SystemExit 1), printed w count_error)).
Proof.
  destruct (pattern_takes_precedence "light, heavy")
    as (pat & Hs & Hrun & Hmain & Hlow & Hmainlow).
  - vm_compute. reflexivity.
  - exists pat. split; [exact Hs|]. split; [|split; [|split]].
    + apply (Hrun "heavy" 7). lia.
    + apply Hmain; [reflexivity | reflexivity | unfold count_given; simpl; lia].
    + apply (Hlow "heavy" 0). lia.
    + apply Hmainlow; [reflexivity | reflexivity | unfold count_given; simpl; lia].
Defined.

(** C2, failing as stated: a value of [--intensity] outside the three names
    ends the process with status 2, argparse's, not 1. *)
Lemma unknown_intensity_exits_2 :
  exit_status (fst (main (Cmdline (Some "bogus") None None) fresh)) = 2
  /\ exit_status (fst (main (Cmdline (Some "bogus") None None) fresh)) <> 1.
Proof. split; [reflexivity | vm_compute; discriminate]. Qed.

(** C2, amended.  The exit status is 2 when [--intensity] is outside the
    three names; otherwise 1 when the count is below 1 and 1 when a
    non-empty pattern holds an unknown name; otherwise [main] returns and
    the status is 0. *)
Theorem exit_codes (cl : cmdline) (w : world) :
  (known (intensity_given cl) = false ->
   exit_status (fst (main cl w)) = 2)
  /\ (known (intensity_given cl) = true ->
      count_given cl < 1 ->
      exit_status (fst (main cl w)) = 1)
  /\ (known (intensity_given cl) = true ->
      forall p, given_pattern cl = Some p -> p <> "" ->
      forallb known (pattern_names p) = false ->
      exit_status (fst (main cl w)) = 1)
  /\ (known (intensity_given cl) = true ->
      1 <= count_given cl ->
      truthy (given_pattern cl) = false
      \/ (exists p, given_pattern cl = Some p
                    /\ forallb known (pattern_names p) = true) ->
      fst (main cl w) = inr tt /\ exit_status (fst (main cl w)) = 0).
Proof.
  split; [|split; [|split]].
  - intros H. now rewrite main_rejected.
  - intros H Hc. rewrite main_accepted by assumption.
    now rewrite run_small.
  - intros H p Hp Hne Hk. rewrite main_accepted by assumption.
    set (args := Args (intensity_given cl) (count_given cl) (given_pattern cl)).
    destruct (Z.lt_ge_cases (count args) 1) as [Hc|Hc].
    + now rewrite run_small.
    + rewrite run_positive by assumption.
      destruct (dispatch_unknown_pattern args p Hp Hne Hk)
        as (before & bad & after & _ & _ & _ & Hrun).
      now rewrite Hrun.
  - intros H Hc Hmode. rewrite main_accepted by assumption.
    set (args := Args (intensity_given cl) (count_given cl) (given_pattern cl)).
    assert (Hr : fst (run args w) = inr tt).
    { rewrite run_positive by assumption. destruct Hmode as [Ht|(p & Hp & Hk)].
      - destruct (subscript_known _ H) as (i & _ & Hi).
        rewrite (dispatch_single args i Ht Hi). apply vibrate_yields.
      - destruct (dispatch_known_pattern args p Hp Hk) as (pat & _ & Hrun).
        rewrite Hrun. apply play_pattern_yields. }
    now rewrite Hr.
Qed.

Lemma exit_codes_witness :
  exit_status (fst (main (Cmdline (Some "loud") None None) fresh)) = 2
  /\ exit_status (fst (main (Cmdline None (Some (-5)) None) fresh)) = 1
  /\ exit_status
       (fst (main (Cmdline None None (Some "light,bogus,heavy")) fresh)) = 1
  /\ exit_status (fst (main (Cmdline (Some "heavy") (Some 2) None) fresh)) = 0.
Proof.
  split; [|split; [|split]].
  - apply (proj1 (exit_codes (Cmdline (Some "loud") None None) fresh)).
    reflexivity.
  - apply (proj1 (proj2 (exit_codes (Cmdline None (Some (-5)) None) fresh)));
      [reflexivity | unfold count_given; simpl; lia].
  - apply (proj1 (proj2 (proj2
             (exit_codes (Cmdline None None (Some "light,bogus,heavy")) fresh)))
             eq_refl "light,bogus,heavy");
      [reflexivity | discriminate | vm_compute; reflexivity].
  - apply (proj2 (proj2 (proj2
             (exit_codes (Cmdline (Some "heavy") (Some 2) None) fresh))));
      [reflexivity | unfold count_given; simpl; lia | left; reflexivity].
Defined.

(** C6.  A count below 1 ends the run with status 1 and leaves the error
    line as the only output.  A count of 1 or more passes the check, which
    prints nothing, and the run goes on to the rendering: in single
    intensity mode it is [vibrate] with that count, returning normally. *)
Theorem count_validation (args : Namespace) :
  (count args < 1 ->
   forall w,
     run args w = (inl (SystemExit 1), printed w count_error)
     /\ exit_status (fst (run args w)) = 1)
  /\ (1 <= count args ->
      (forall w, validate_count args w = (inr tt, w))
      /\ (forall w, run args w = dispatch args w)
      /\ (forall i,
            truthy (pattern args) = false ->
            subscript (intensity args) = inr i ->
            (forall w, run args w = vibrate i (count args) w)
            /\ yields (run args) (inr tt) (vibrate_text i (count args)))).
Proof.
  split.
  - intros H w. now rewrite run_small.
  - intros H. split; [|split].
    + intros w. now apply validate_count_positive.
    + intros w. now apply run_positive.
    + intros i Ht Hi. split.
      * intros w. now rewrite run_positive, (dispatch_single args i Ht Hi).
      * intros w. rewrite run_positive, (dispatch_single args i Ht Hi) by assumption.
        apply vibrate_yields.
Qed.

Lemma count_validation_witness :
  (forall w,
      run (Args "light" (-5) None) w = (inl (SystemExit 1), printed w count_error)
      /\ exit_status (fst (run (Args "light" (-5) None) w)) = 1)
  /\ yields (run (Args "light" 3 None)) (inr tt) (vibrate_text LIGHT 3).
Proof.
  split.
  - apply (proj1 (count_validation (Args "light" (-5) None))). simpl. lia.
  - apply (proj2 (proj2 (proj2 (count_validation (Args "light" 3 None))
                                 ltac:(simpl; lia))) LIGHT);
      reflexivity.
Defined.

(** C7, failing as stated, twice over.  The empty pattern splits into the
    one name [''], which is not a known name, yet the run renders a medium
    vibration and returns; and with [--count 0] the error printed for
    [light,bogus,heavy] is the count's, which names no token. *)
Lemma unknown_name_not_always_reported :
  (pattern_names "" = [""] /\ known "" = false
   /\ main (Cmdline None None (Some "")) fresh = vibrate MEDIUM 1 fresh
   /\ fst (main (Cmdline None None (Some "")) fresh) = inr tt)
  /\ (forallb known (pattern_names "light,bogus,heavy") = false
      /\ main (Cmdline None (Some 0) (Some "light,bogus,heavy")) fresh
         = (inl (SystemExit 1), printed fresh count_error)
      /\ count_error <> pattern_error "bogus").
Proof.
  split.
  - repeat split; vm_compute; reflexivity.
  - repeat split; try reflexivity. vm_compute. discriminate.
Qed.

(** C7, amended.  For a non-empty pattern with an unknown name the run
    exits with status 1 having printed one error line and nothing else, so
    nothing is rendered for any name, before or after the unknown one.
    With a count of 1 or more the line names the first unknown name; with
    a count below 1 it is the count's error. *)
Theorem pattern_validation_atomic (args : Namespace) (p : string) :
  pattern args = Some p ->
  p <> "" ->
  forallb known (pattern_names p) = false ->
  exists before bad after,
    pattern_names p = (before ++ bad :: after)%list
    /\ forallb known before = true
    /\ known bad = false
    /\ forall w,
         run args w
         = (inl (SystemExit 1),
            printed w (if count args <? 1 then count_error
                       else pattern_error bad)).
Proof.
  intros Hp Hne Hk.
  destruct (dispatch_unknown_pattern args p Hp Hne Hk)
    as (before & bad & after & Hsplit & Hb & Hbad & Hrun).
  exists before, bad, after. repeat split; try assumption.
  intros w. destruct (Z.ltb_spec (count args) 1) as [Hc|Hc].
  - now apply run_small.
  - now rewrite run_positive, Hrun.
Qed.

Lemma pattern_validation_atomic_witness :
  exists before bad after,
    pattern_names "light, bogus ,heavy" = (before ++ bad :: after)%list
    /\ forallb known before = true
    /\ known bad = false
    /\ forall w,
         run (Args "medium" 1 (Some "light, bogus ,heavy")) w
         = (inl (SystemExit 1),
            printed w (if 1 <? 1 then count_error else pattern_error bad)).
Proof.
  apply (pattern_validation_atomic
           (Args "medium" 1 (Some "light, bogus ,heavy")) "light, bogus ,heavy").
  - reflexivity.
  - discriminate.
  - vm_compute. reflexivity.
Defined.

(** C9.  Two runs of the same command line, from worlds that may differ in
    the clock, in what the scheduler adds to every sleep and in what was
    printed before, end the same way and append the same text to standard
    output. *)
Theorem main_deterministic (cl : cmdline) (w1 w2 : world) :
  fst (main cl w1) = fst (main cl w2)
  /\ exists t,
       stdout (snd (main cl w1)) = stdout w1 ++ t
       /\ stdout (snd (main cl w2)) = stdout w2 ++ t.
Proof.
  destruct (oblivious_main cl) as (r & t & H).
  destruct (H w1) as [Hr1 Ho1], (H w2) as [Hr2 Ho2].
  split; [congruence|]. now exists t.
Qed.

(** C10.  [--pattern ''] is not pattern mode: the run is the one with no
    [--pattern] at all, so no pattern error is printed and, with a count
    of 1 or more, the named intensity is vibrated [count] times. *)
Theorem empty_pattern_is_single_mode :
  (forall gi gc w,
      main (Cmdline gi gc (Some "")) w = main (Cmdline gi gc None) w)
  /\ (forall name n w, run (Args name n (Some "")) w = run (Args name n None) w)
  /\ (forall i n,
        1 <= n ->
        (forall w, run (Args (intensity_name i) n (Some "")) w = vibrate i n w)
        /\ yields (run (Args (intensity_name i) n (Some ""))) (inr tt)
                  (vibrate_text i n)).
Proof.
  split; [|split].
  - intros gi gc w. unfold main, parse_args, bind.
    cbn [given_intensity given_count given_pattern].
    match goal with
    | |- context [if ?b then _ else _] => destruct b
    end; reflexivity.
  - intros name n w. reflexivity.
  - intros i n Hn.
    assert (Hrun : forall w, run (Args (intensity_name i) n (Some "")) w
                             = vibrate i n w).
    { intros w. rewrite run_positive by exact Hn.
      apply dispatch_single; [reflexivity | now destruct i]. }
    split; [exact Hrun|]. intros w. rewrite Hrun. apply vibrate_yields.
Qed.

Lemma empty_pattern_is_single_mode_witness :
  (forall w, run (Args "heavy" 2 (Some "")) w = vibrate HEAVY 2 w)
  /\ yields (run (Args "heavy" 2 (Some ""))) (inr tt) (vibrate_text HEAVY 2).
Proof.
  apply (proj2 (proj2 empty_pattern_is_single_mode) HEAVY 2). lia.
Defined.

(** * Further properties *)

(** ** The sleeps a statement asks for *)

Lemma rests_ret {A : Type} (a : A) : rests (ret a) a [].
Proof. intros w. simpl. now rewrite app_nil_r. Qed.

Lemma rests_write (s : string) : rests (write s) tt [].
Proof. intros w. simpl. now rewrite app_nil_r. Qed.

Lemma rests_print (s : string) : rests (print s) tt [].
Proof. apply rests_write. Qed.

Lemma rests_flush : rests flush tt [].
Proof. intros w. simpl. now rewrite app_nil_r. Qed.

Lemma rests_sleep (secs : float) :
  sleep_check secs = None -> rests (sleep secs) tt [secs].
Proof. intros H w. unfold sleep. rewrite H. now simpl. Qed.

Lemma rests_bind {A B : Type} (m : M A) (k : A -> M B) a b ns ns' :
  rests m a ns -> rests (k a) b ns' -> rests (bind m k) b (ns ++ ns').
Proof.
  intros Hm Hk w. unfold bind.
  destruct (Hm w) as [Hr Hn]. destruct (m w) as [[e|a'] w']; simpl in *.
  - discriminate.
  - injection Hr as ->. destruct (Hk w') as [Hr' Hn'].
    split; [assumption|]. now rewrite Hn', Hn, app_assoc.
Qed.

Lemma rests_for_each {A : Type} (xs : list A) (body : A -> M unit)
      (f : A -> list float) :
  (forall x, In x xs -> rests (body x) tt (f x)) ->
  rests (for_each xs body) tt (List.concat (map f xs)).
Proof.
  induction xs as [|x xs IH]; intros H; simpl.
  - apply rests_ret.
  - eapply rests_bind.
    + apply H. now left.
    + apply IH. intros y Hy. apply H. now right.
Qed.

Lemma rests_eq {A : Type} (m : M A) a ns ns' :
  rests m a ns -> ns = ns' -> rests m a ns'.
Proof. now intros H <-. Qed.

Lemma concat_const {A B : Type} (c : list B) (xs : list A) :
  List.concat (map (fun _ => c) xs) = List.concat (repeat c (List.length xs)).
Proof. induction xs as [|x xs IH]; simpl; [reflexivity | now rewrite IH]. Qed.

Lemma concat_singletons {A : Type} (x : A) (n : nat) :
  List.concat (repeat [x] n) = repeat x n.
Proof. induction n as [|n IH]; simpl; [reflexivity | now rewrite IH]. Qed.

Lemma tick_catalog (i : VibrationIntensity) :
  div_int (duration i) (Z.of_nat (dots i)) = inr (tick i)
  /\ sleep_check (tick i) = None.
Proof. destruct i; split; vm_compute; reflexivity. Qed.

Lemma animate_rests (i : VibrationIntensity) :
  rests (_animate_vibration (duration i)) tt (ticks i).
Proof.
  unfold _animate_vibration. rewrite steps_catalog. unfold lift.
  destruct (tick_catalog i) as [Hdiv Hok].
  eapply rests_eq.
  - eapply rests_bind; [apply rests_ret|].
    eapply rests_bind; [|apply rests_print].
    apply (rests_for_each _ _ (fun _ => [tick i])).
    intros k _. rewrite Hdiv. unfold lift.
    eapply rests_eq.
    { eapply rests_bind; [apply rests_write|].
      eapply rests_bind; [apply rests_flush|].
      eapply rests_bind; [apply rests_ret|].
      now apply rests_sleep. }
    reflexivity.
  - simpl. rewrite app_nil_r, concat_const, concat_singletons, range_length.
    unfold ticks. f_equal. lia.
Qed.

Lemma range_snoc (lo hi : Z) : lo <= hi -> range lo (hi + 1) = (range lo hi ++ [hi])%list.
Proof.
  intros H. unfold range.
  replace (Z.to_nat (hi + 1 - lo)) with (S (Z.to_nat (hi - lo))) by lia.
  rewrite seq_S, map_app. simpl. do 2 f_equal. lia.
Qed.

Lemma vibrate_rests_each (i : VibrationIntensity) (count : Z) :
  rests (vibrate i count) tt
    (List.concat (map (fun k => ticks i ++ (if k <? count then [literal 2 10] else []))
                 (range 1 (count + 1))))%list.
Proof.
  unfold vibrate.
  eapply rests_eq.
  - eapply rests_bind; [apply rests_print|].
    eapply rests_bind; [apply rests_print|].
    eapply rests_bind;
      [apply (rests_for_each _ _
                (fun k => ticks i ++ (if k <? count then [literal 2 10] else []))%list)
      |eapply rests_bind; apply rests_print].
    intros k _. rewrite bar_length_catalog. unfold lift.
    eapply rests_eq.
    { eapply rests_bind; [apply rests_ret|].
      eapply rests_bind; [apply rests_print|].
      eapply rests_bind; [apply animate_rests|].
      instantiate (1 := if k <? count then [literal 2 10] else []).
      destruct (k <? count); [apply rests_sleep, sleep_check_fifth | apply rests_ret]. }
    reflexivity.
  - simpl. now rewrite app_nil_r.
Qed.

Lemma concat_repeat_length {A : Type} (c : list A) (n : nat) :
  List.length (List.concat (repeat c n)) = (n * List.length c)%nat.
Proof.
  induction n as [|n IH]; simpl; [reflexivity|].
  now rewrite length_app, IH.
Qed.

Lemma vibrate_naps_closed (i : VibrationIntensity) (count : Z) :
  1 <= count ->
  List.concat (map (fun k => ticks i ++ (if k <? count then [literal 2 10] else []))
                   (range 1 (count + 1)))%list
  = vibrate_naps i count.
Proof.
  intros H. unfold vibrate_naps.
  rewrite (range_snoc 1 count H), map_app, concat_app. simpl.
  rewrite Z.ltb_irrefl, !app_nil_r. f_equal.
  rewrite (map_ext_in _ (fun _ => ticks i ++ [literal 2 10])%list).
  - rewrite concat_const, range_length. reflexivity.
  - intros k Hk. apply range_In in Hk.
    replace (k <? count) with true by (symmetry; apply Z.ltb_lt; lia).
    reflexivity.
Qed.

Lemma for_each_numbered_rests (body : Z * VibrationIntensity -> M unit) (n : Z) :
  (forall index i,
      rests (body (index, i)) tt
            (ticks i ++ (if index <? n - 1 then [literal 3 10] else []))%list) ->
  forall xs s,
    n = Z.of_nat (s + List.length xs) ->
    rests (for_each (combine (map (fun k => 0 + Z.of_nat k)
                                  (seq s (List.length xs))) xs) body)
          tt (pattern_naps xs).
Proof.
  intros Hbody. induction xs as [|i rest IH]; intros s Hn.
  - apply rests_ret.
  - cbn [List.length seq map combine for_each].
    eapply rests_eq.
    + eapply rests_bind; [apply Hbody|].
      apply (IH (S s)). rewrite Hn. simpl. lia.
    + destruct rest as [|j rest'].
      * replace (0 + Z.of_nat s <? n - 1) with false
          by (symmetry; apply Z.ltb_ge; simpl in Hn; lia).
        simpl. now rewrite !app_nil_r.
      * replace (0 + Z.of_nat s <? n - 1) with true
          by (symmetry; apply Z.ltb_lt; simpl in Hn; lia).
        cbn [pattern_naps]. now rewrite <- app_assoc.
Qed.

Lemma play_pattern_rests (pattern : list VibrationIntensity) :
  rests (play_pattern pattern) tt (pattern_naps pattern).
Proof.
  unfold play_pattern.
  eapply rests_eq.
  - eapply rests_bind; [apply rests_print|].
    eapply rests_bind; [apply rests_print|].
    eapply rests_bind; [|eapply rests_bind; apply rests_print].
    unfold enumerate, range.
    rewrite Z.sub_0_r, Nat2Z.id.
    apply (for_each_numbered_rests _ (Z.of_nat (List.length pattern)));
      [|reflexivity].
    intros index i. cbn beta iota.
    eapply rests_eq.
    { eapply rests_bind; [apply rests_print|].
      rewrite bar_length_catalog. unfold lift.
      eapply rests_bind; [apply rests_ret|].
      eapply rests_bind; [apply rests_print|].
      eapply rests_bind; [apply animate_rests|].
      instantiate (1 := if index <? Z.of_nat (List.length pattern) - 1
                        then [literal 3 10] else []).
      destruct (index <? Z.of_nat (List.length pattern) - 1);
        [apply rests_sleep, sleep_check_three_tenths | apply rests_ret]. }
    reflexivity.
  - simpl. now rewrite app_nil_r.
Qed.

(** ** Sleeps of the two renderers *)

(** X1.  [vibrate] with a count of 1 or more returns after asking for the
    sleeps of [count] animations with one pause of 0.2 after each
    repetition except the last: [count * steps + (count - 1)] sleeps. *)
Theorem vibrate_pauses_between (i : VibrationIntensity) (count : Z) :
  1 <= count ->
  rests (vibrate i count) tt
        (List.concat (repeat (ticks i ++ [literal 2 10]) (Z.to_nat (count - 1)))
         ++ ticks i)%list
  /\ List.length (vibrate_naps i count)
     = (Z.to_nat count * dots i + (Z.to_nat count - 1))%nat.
Proof.
  intros H. split.
  - eapply rests_eq; [apply vibrate_rests_each|]. now apply vibrate_naps_closed.
  - unfold vibrate_naps, ticks.
    rewrite length_app, concat_repeat_length, length_app, repeat_length.
    simpl. nia.
Qed.

Lemma vibrate_pauses_between_witness :
  rests (vibrate MEDIUM 2) tt
        (List.concat (repeat (ticks MEDIUM ++ [literal 2 10]) (Z.to_nat (2 - 1)))
         ++ ticks MEDIUM)%list
  /\ List.length (vibrate_naps MEDIUM 2)
     = (Z.to_nat 2 * dots MEDIUM + (Z.to_nat 2 - 1))%nat.
Proof. apply (vibrate_pauses_between MEDIUM 2). lia. Defined.

(** X2.  [play_pattern] returns after asking, step by step, for the sleeps
    of that step's animation and then, unless the step is the last, for a
    pause of 0.3; an empty pattern asks for no sleep. *)
Theorem play_pattern_pauses_between :
  (forall pattern, rests (play_pattern pattern) tt (pattern_naps pattern))
  /\ pattern_naps [] = []
  /\ (forall i, pattern_naps [i] = ticks i)
  /\ (forall i j rest,
        pattern_naps (i :: j :: rest)
        = (ticks i ++ literal 3 10 :: pattern_naps (j :: rest))%list).
Proof.
  split; [exact play_pattern_rests|]. now repeat split.
Qed.

(** X3.  Called with a count of 0 or less, [vibrate] runs no repetition:
    it prints the title, the two rules and the closing line, sleeps
    never, and returns. *)
Theorem vibrate_without_repetition (i : VibrationIntensity) (count : Z) :
  count <= 0 ->
  yields (vibrate i count) (inr tt)
         ((color "🔊 Vibration Simulator" "bold" ++ LF)
          ++ rule ++ rule
          ++ (color "✅ Vibration complete!" "green" ++ LF))
  /\ rests (vibrate i count) tt [].
Proof.
  intros H. split.
  - eapply yields_eq; [apply vibrate_yields|].
    unfold vibrate_text. now rewrite range_empty by lia.
  - eapply rests_eq; [apply vibrate_rests_each|].
    now rewrite range_empty by lia.
Qed.

Lemma vibrate_without_repetition_witness :
  yields (vibrate HEAVY (-3)) (inr tt)
         ((color "🔊 Vibration Simulator" "bold" ++ LF)
          ++ rule ++ rule
          ++ (color "✅ Vibration complete!" "green" ++ LF))
  /\ rests (vibrate HEAVY (-3)) tt [].
Proof. apply (vibrate_without_repetition HEAVY (-3)). lia. Defined.

(** ** Edges of the animation and of [color] *)

Lemma find_all_false {A : Type} (f : A -> bool) (l : list A) :
  (forall x, In x l -> f x = false) -> find f l = None.
Proof.
  induction l as [|x l IH]; intros H; simpl; [reflexivity|].
  rewrite (H x) by now left. apply IH. intros y Hy. apply H. now right.
Qed.

(** X4.  A duration whose step count is negative animates like one whose
    step count is 0: the newline is written and nothing else happens.  A
    duration that is NaN or infinite makes [int] raise, ValueError and
    OverflowError, before anything is written. *)
Theorem animate_off_catalog :
  (forall d n,
      steps d = inr n -> n <= 0 ->
      forall w, _animate_vibration d w = (inr tt, printed w LF))
  /\ (forall w, _animate_vibration S754_nan w = (inl ValueError, w))
  /\ (forall s w, _animate_vibration (S754_infinity s) w = (inl OverflowError, w)).
Proof.
  split; [|split].
  - intros d n Hn Hle w. unfold _animate_vibration. rewrite Hn.
    unfold lift, bind, ret. rewrite range_empty by lia. reflexivity.
  - intros w. reflexivity.
  - intros [|] w; reflexivity.
Qed.

Lemma animate_off_catalog_witness :
  steps (literal (-5) 10) = inr (-5)
  /\ forall w, _animate_vibration (literal (-5) 10) w = (inr tt, printed w LF).
Proof.
  split; [vm_compute; reflexivity|].
  apply (proj1 animate_off_catalog (literal (-5) 10) (-5)).
  - vm_compute. reflexivity.
  - lia.
Defined.

(** X5.  [color] with a colour name the table does not hold adds no
    escape in front of the text, and still the reset behind it. *)
Theorem color_unknown_name (text name : string) :
  (forall kv, In kv colors -> fst kv <> name) ->
  color text name = text ++ ESC ++ "[0m".
Proof.
  intros H. unfold color, dict_get.
  replace (find (fun kv => (fst kv =? name)%string) colors) with (@None (string * string)).
  - reflexivity.
  - symmetry. apply find_all_false. intros kv Hkv.
    apply String.eqb_neq. now apply H.
Qed.

Lemma color_unknown_name_witness :
  color "bar" "orange" = "bar" ++ ESC ++ "[0m".
Proof.
  apply (color_unknown_name "bar" "orange").
  intros kv Hkv. simpl in Hkv.
  repeat (destruct Hkv as [<-|Hkv]; [discriminate|]). contradiction.
Defined.

(** ** The intensity table and the ways [main] can end *)

Lemma subscript_unknown (name : string) :
  known name = false -> subscript name = inl (KeyError name).
Proof.
  intros Hk. destruct (unknown_cases _ Hk) as (H1 & H2 & H3).
  unfold subscript, intensity_map. cbn [find fst].
  rewrite (String.eqb_sym "light"), H1, (String.eqb_sym "medium"), H2,
    (String.eqb_sym "heavy"), H3.
  reflexivity.
Qed.

(** X6.  [intensity_map] and the catalog's names are inverse of each other:
    looking up the name of an intensity gives that intensity, whatever a
    lookup gives bears the name looked up, the names argparse accepts are
    the keys of the table, and a name that is none of them is a KeyError
    that carries it. *)
Theorem intensity_map_round_trip :
  (forall i, subscript (intensity_name i) = inr i)
  /\ (forall name i, subscript name = inr i -> intensity_name i = name)
  /\ map fst intensity_map = choices
  /\ (forall name, known name = false -> subscript name = inl (KeyError name)).
Proof.
  split; [|split; [|split]].
  - now intros [| |].
  - intros name i H. destruct (known name) eqn:Hk.
    + destruct (subscript_known _ Hk) as (j & Hj & Hs). congruence.
    + rewrite (subscript_unknown _ Hk) in H. discriminate.
  - reflexivity.
  - exact subscript_unknown.
Qed.

Lemma intensity_map_round_trip_witness :
  intensity_name MEDIUM = "medium"
  /\ subscript "Light" = inl (KeyError "Light").
Proof.
  split.
  - apply (proj1 (proj2 intensity_map_round_trip) "medium" MEDIUM).
    reflexivity.
  - apply (proj2 (proj2 (proj2 intensity_map_round_trip)) "Light").
    reflexivity.
Defined.

(** X7.  Past the count check and with no pattern, a namespace whose
    intensity is none of the three names ends in an uncaught KeyError with
    nothing printed.  It is argparse's choice check that keeps [main] away
    from it: on a command line made of [--intensity], [--count] with an
    integer and [--pattern], whatever text or number they hold, [main]
    returns or exits with status 1 or 2, and raises nothing else.  ([--help]
    and what argparse cannot read are no such command line.) *)
Theorem main_never_raises :
  (forall name n w,
      known name = false -> 1 <= n ->
      run (Args name n None) w = (inl (KeyError name), w))
  /\ (forall cl w,
        fst (main cl w) = inr tt
        \/ fst (main cl w) = inl (SystemExit 1)
        \/ fst (main cl w) = inl (SystemExit 2)).
Proof.
  split.
  - intros name n w Hk Hn. rewrite run_positive by exact Hn.
    unfold dispatch. cbn [pattern truthy intensity].
    rewrite (subscript_unknown name Hk). reflexivity.
  - intros cl w. destruct (known (intensity_given cl)) eqn:Hk.
    + rewrite main_accepted by assumption.
      set (args := Args (intensity_given cl) (count_given cl) (given_pattern cl)).
      destruct (Z.lt_ge_cases (count args) 1) as [Hc|Hc].
      * right; left. now rewrite run_small.
      * rewrite run_positive by assumption.
        destruct (truthy (pattern args)) eqn:Ht.
        -- destruct (pattern args) as [p|] eqn:Hp; [|discriminate].
           assert (Hne : p <> "").
           { intros ->. discriminate Ht. }
           destruct (forallb known (pattern_names p)) eqn:Hall.
           ++ destruct (dispatch_known_pattern args p Hp Hall) as (pat & _ & Hrun).
              left. rewrite Hrun. apply play_pattern_yields.
           ++ destruct (dispatch_unknown_pattern args p Hp Hne Hall)
                as (before & bad & after & _ & _ & _ & Hrun).
              right; left. now rewrite Hrun.
        -- destruct (subscript_known _ Hk) as (i & _ & Hi).
           left. rewrite (dispatch_single args i Ht Hi). apply vibrate_yields.
    + right; right. now rewrite main_rejected.
Qed.

Lemma main_never_raises_witness :
  run (Args "loud" 1 None) fresh = (inl (KeyError "loud"), fresh).
Proof.
  apply (proj1 main_never_raises "loud" 1 fresh); [reflexivity | lia].
Defined.

(** X8.  For a count of 0 or more [vibrate] prints exactly [count]
    repetitions, and the one at (0-based) position [k] is labelled
    [[k+1/count]]. *)
Theorem vibrate_numbers_repetitions (i : VibrationIntensity) (count : Z) :
  0 <= count ->
  yields (vibrate i count) (inr tt)
         ((color "🔊 Vibration Simulator" "bold" ++ LF)
          ++ rule
          ++ join (map (repetition_text i count) (range 1 (count + 1)))
          ++ rule
          ++ (color "✅ Vibration complete!" "green" ++ LF))
  /\ List.length (range 1 (count + 1)) = Z.to_nat count
  /\ (forall k,
        (k < Z.to_nat count)%nat ->
        nth_error (map (repetition_text i count) (range 1 (count + 1))) k
        = Some ((("[" ++ str_of_int (Z.of_nat k + 1) ++ "/" ++ str_of_int count
                  ++ "] " ++ color (upper (intensity_name i)) "bold" ++ ": "
                  ++ bar_text i) ++ LF)
                ++ animation_text i)).
Proof.
  intros H. split; [apply vibrate_yields|]. split.
  - rewrite range_length. f_equal. lia.
  - intros k Hk. rewrite nth_error_map. unfold range.
    rewrite nth_error_map, nth_error_seq.
    replace (k <? Z.to_nat (count + 1 - 1))%nat with true
      by (symmetry; apply Nat.ltb_lt; lia).
    cbn [option_map Nat.add].
    replace (1 + Z.of_nat k) with (Z.of_nat k + 1) by lia. reflexivity.
Qed.

Lemma vibrate_numbers_repetitions_witness :
  nth_error (map (repetition_text LIGHT 3) (range 1 (3 + 1))) 2
  = Some ((("[" ++ str_of_int (Z.of_nat 2 + 1) ++ "/" ++ str_of_int 3
            ++ "] " ++ color (upper (intensity_name LIGHT)) "bold" ++ ": "
            ++ bar_text LIGHT) ++ LF)
          ++ animation_text LIGHT).
Proof.
  apply (proj2 (proj2 (vibrate_numbers_repetitions LIGHT 3 ltac:(lia))) 2%nat).
  simpl. lia.
Defined.

(** ** Trimming and splitting *)

Lemma prefix_empty (s : string) : prefix "" s = true.
Proof. now destruct s. Qed.

Lemma length_append (a b : string) :
  String.length (a ++ b) = (String.length a + String.length b)%nat.
Proof. induction a as [|c a IH]; simpl; [reflexivity | now rewrite IH]. Qed.

Lemma spaces_length (n : nat) : String.length (spaces n) = n.
Proof.
  unfold spaces. induction n as [|n IH]; simpl; [reflexivity | now rewrite IH].
Qed.

Lemma spaces_snoc (n : nat) : spaces (S n) = spaces n ++ " ".
Proof.
  unfold spaces. induction n as [|n IH]; [reflexivity|].
  simpl in *. now rewrite <- IH.
Qed.

Lemma leading_space_space (s : string) : leading_space (String " " s) = Some " ".
Proof. unfold leading_space. simpl. now rewrite prefix_empty. Qed.

Lemma lstrip_fuel_spaces (t : string) :
  leading_space t = None ->
  forall n fuel, (n <= fuel)%nat -> lstrip_fuel fuel (spaces n ++ t) = t.
Proof.
  intros Ht. induction n as [|n IH]; intros fuel Hf.
  - destruct fuel; simpl; [reflexivity | now rewrite Ht].
  - destruct fuel as [|fuel]; [lia|].
    change (spaces (S n) ++ t) with (String " " (spaces n ++ t)).
    cbn [lstrip_fuel]. rewrite leading_space_space.
    cbn [String.length drop]. apply IH. lia.
Qed.

Lemma lstrip_spaces (t : string) (n : nat) :
  leading_space t = None -> lstrip (spaces n ++ t) = t.
Proof.
  intros Ht. unfold lstrip. apply lstrip_fuel_spaces; [assumption|].
  rewrite length_append, spaces_length. lia.
Qed.

Lemma list_ascii_of_append (a b : string) :
  list_ascii_of_string (a ++ b)
  = (list_ascii_of_string a ++ list_ascii_of_string b)%list.
Proof. induction a as [|c a IH]; simpl; [reflexivity | now rewrite IH]. Qed.

Lemma rev_string_snoc (s : string) :
  rev_string (s ++ " ") = String " " (rev_string s).
Proof.
  unfold rev_string. rewrite list_ascii_of_append, rev_app_distr. reflexivity.
Qed.

Lemma trailing_space_space (s : string) : trailing_space (s ++ " ") = Some " ".
Proof.
  unfold trailing_space. rewrite rev_string_snoc. simpl.
  now rewrite prefix_empty.
Qed.

Lemma substring_prefix (a b : string) :
  substring 0 (String.length a) (a ++ b) = a.
Proof.
  induction a as [|c a IH]; simpl; [now destruct b | now rewrite IH].
Qed.

Lemma rstrip_fuel_spaces (t : string) :
  trailing_space t = None ->
  forall n fuel, (n <= fuel)%nat -> rstrip_fuel fuel (t ++ spaces n) = t.
Proof.
  intros Ht. induction n as [|n IH]; intros fuel Hf.
  - change (spaces 0) with "". rewrite append_nil_r.
    destruct fuel; simpl; [reflexivity | now rewrite Ht].
  - destruct fuel as [|fuel]; [lia|].
    rewrite spaces_snoc, <- append_assoc.
    cbn [rstrip_fuel]. rewrite trailing_space_space.
    rewrite length_append. cbn [String.length].
    replace (String.length (t ++ spaces n) + 1 - 1)%nat
      with (String.length (t ++ spaces n)) by lia.
    rewrite substring_prefix. apply IH. lia.
Qed.

Lemma rstrip_spaces (t : string) (n : nat) :
  trailing_space t = None -> rstrip (t ++ spaces n) = t.
Proof.
  intros Ht. unfold rstrip. apply rstrip_fuel_spaces; [assumption|].
  rewrite length_append, spaces_length. lia.
Qed.

Lemma strip_spaces (n : nat) : strip (spaces n) = "".
Proof.
  unfold strip. rewrite <- (append_nil_r (spaces n)).
  rewrite lstrip_spaces by reflexivity. reflexivity.
Qed.

Lemma leading_space_name (i : VibrationIntensity) (rest : string) :
  leading_space (intensity_name i ++ rest) = None.
Proof. destruct i; reflexivity. Qed.

Lemma strip_padded (tok : nat * VibrationIntensity * nat) :
  strip (padded tok) = intensity_name (snd (fst tok)).
Proof.
  destruct tok as [[n i] m]. unfold strip, padded. cbn [fst snd].
  rewrite lstrip_spaces by apply leading_space_name.
  apply rstrip_spaces. now destruct i.
Qed.

Lemma split_comma_nonempty (s : string) : split_comma s <> [].
Proof.
  induction s as [|c s IH]; simpl; [discriminate|].
  destruct (Ascii.eqb c ","); [discriminate|].
  destruct (split_comma s); discriminate.
Qed.

Lemma split_comma_app (a b : string) :
  no_comma a = true ->
  split_comma (a ++ b)
  = match split_comma b with
    | [] => [a]
    | tok :: toks => (a ++ tok) :: toks
    end.
Proof.
  induction a as [|c a IH]; simpl; intros H.
  - destruct (split_comma b) eqn:Hb; [|reflexivity].
    now destruct (split_comma_nonempty b).
  - apply andb_true_iff in H as [Hc Ha]. apply negb_true_iff in Hc.
    rewrite Hc, (IH Ha). now destruct (split_comma b).
Qed.

Lemma split_comma_single (a : string) : no_comma a = true -> split_comma a = [a].
Proof.
  intros H. rewrite <- (append_nil_r a) at 1.
  rewrite (split_comma_app a "" H). simpl. now rewrite append_nil_r.
Qed.

Lemma split_comma_token (a rest : string) :
  no_comma a = true -> split_comma (a ++ "," ++ rest) = a :: split_comma rest.
Proof.
  intros H. rewrite (split_comma_app a _ H). simpl. now rewrite append_nil_r.
Qed.

Lemma split_comma_trailing (s : string) :
  split_comma (s ++ ",") = (split_comma s ++ [""])%list.
Proof.
  induction s as [|c s IH]; simpl; [reflexivity|].
  rewrite IH. destruct (Ascii.eqb c ","); [reflexivity|].
  destruct (split_comma s) eqn:Hs; [|reflexivity].
  now destruct (split_comma_nonempty s).
Qed.

Lemma split_comma_join (toks : list string) :
  toks <> [] ->
  forallb no_comma toks = true ->
  split_comma (comma_join toks) = toks.
Proof.
  induction toks as [|tok rest IH]; intros Hne H; [contradiction|].
  simpl in H. apply andb_true_iff in H as [Htok Hrest].
  destruct rest as [|tok' rest'].
  - simpl. now apply split_comma_single.
  - change (comma_join (tok :: tok' :: rest'))
      with (tok ++ "," ++ comma_join (tok' :: rest')).
    rewrite (split_comma_token _ _ Htok). f_equal.
    apply IH; [discriminate | assumption].
Qed.

Lemma no_comma_app (a b : string) :
  no_comma (a ++ b) = no_comma a && no_comma b.
Proof.
  induction a as [|c a IH]; simpl; [reflexivity|].
  now rewrite IH, andb_assoc.
Qed.

Lemma no_comma_spaces (n : nat) : no_comma (spaces n) = true.
Proof. unfold spaces. induction n as [|n IH]; simpl; [reflexivity | exact IH]. Qed.

Lemma no_comma_padded (tok : nat * VibrationIntensity * nat) :
  no_comma (padded tok) = true.
Proof.
  destruct tok as [[n i] m]. unfold padded. cbn [fst snd].
  rewrite !no_comma_app, !no_comma_spaces. now destruct i.
Qed.

Lemma pattern_names_padded (toks : list (nat * VibrationIntensity * nat)) :
  toks <> [] ->
  pattern_names (comma_join (map padded toks))
  = map intensity_name (map (fun tok => snd (fst tok)) toks).
Proof.
  intros Hne. unfold pattern_names. rewrite split_comma_join.
  - rewrite !map_map. apply map_ext. exact strip_padded.
  - destruct toks; [contradiction | discriminate].
  - apply forallb_forall. intros s Hs. apply in_map_iff in Hs as (tok & <- & _).
    apply no_comma_padded.
Qed.

Lemma spells_inj (a b : list VibrationIntensity) :
  map intensity_name a = map intensity_name b -> a = b.
Proof.
  revert b. induction a as [|i a IH]; intros [|j b] H; simpl in H;
    try discriminate; [reflexivity|].
  injection H as Hname Hrest. f_equal; [|now apply IH].
  destruct i, j; (reflexivity || discriminate Hname).
Qed.

Lemma forallb_known_names (pat : list VibrationIntensity) :
  forallb known (map intensity_name pat) = true.
Proof.
  apply forallb_forall. intros s Hs. apply in_map_iff in Hs as (i & <- & _).
  apply known_name.
Qed.

(** ** Patterns as the user writes them *)

(** X9.  Writing a pattern and reading it back: the names of one or more
    intensities, each with any number of spaces before and after it,
    joined by commas, make a pattern that [main]'s parsing turns back into
    those intensities, in order, and plays. *)
Theorem pattern_round_trip (toks : list (nat * VibrationIntensity * nat)) :
  toks <> [] ->
  pattern_names (comma_join (map padded toks))
  = map intensity_name (map (fun tok => snd (fst tok)) toks)
  /\ (forall acc w,
        collect (pattern_names (comma_join (map padded toks))) acc w
        = (inr (acc ++ map (fun tok => snd (fst tok)) toks)%list, w))
  /\ (forall name n w,
        1 <= n ->
        run (Args name n (Some (comma_join (map padded toks)))) w
        = play_pattern (map (fun tok => snd (fst tok)) toks) w).
Proof.
  intros Hne.
  pose proof (pattern_names_padded toks Hne) as Hnames.
  assert (Hk : forallb known (pattern_names (comma_join (map padded toks))) = true).
  { rewrite Hnames. apply forallb_known_names. }
  split; [exact Hnames|]. split.
  - intros acc w. destruct (collect_known _ Hk) as (pat & Hspell & Hrun).
    unfold spells in Hspell. rewrite Hnames in Hspell.
    apply spells_inj in Hspell. subst pat. apply Hrun.
  - intros name n w Hn. rewrite run_positive by exact Hn.
    destruct (dispatch_known_pattern
                (Args name n (Some (comma_join (map padded toks)))) _ eq_refl Hk)
      as (pat & Hspell & Hrun).
    unfold spells in Hspell. rewrite Hnames in Hspell.
    apply spells_inj in Hspell. subst pat. apply Hrun.
Qed.

Lemma pattern_round_trip_witness :
  comma_join (map padded [(0, LIGHT, 0); (1, HEAVY, 2)]%nat) = "light, heavy  "
  /\ forall w,
       run (Args "medium" 1 (Some (comma_join
              (map padded [(0, LIGHT, 0); (1, HEAVY, 2)]%nat)))) w
       = play_pattern [LIGHT; HEAVY] w.
Proof.
  split; [reflexivity|]. intros w.
  apply (proj2 (proj2 (pattern_round_trip [(0, LIGHT, 0); (1, HEAVY, 2)]%nat
                         ltac:(discriminate))) "medium" 1 w).
  lia.
Defined.

(** X10.  An empty token is an unknown name.  A pattern of spaces only is
    one empty token, and so is a leading comma: with a count of 1 or more
    both end the run with status 1 after the one line
    [Invalid intensity '' in pattern].  A trailing comma leaves an empty
    last token, so a pattern that ends in a comma is never played: the run
    ends with status 1 after one line that names its first unknown
    token, the one with known names only before it. *)
Theorem empty_token_rejected (name : string) (n : Z) :
  1 <= n ->
  (forall k w,
      run (Args name n (Some (spaces (S k)))) w
      = (inl (SystemExit 1), printed w (pattern_error "")))
  /\ (forall s w,
        run (Args name n (Some ("," ++ s))) w
        = (inl (SystemExit 1), printed w (pattern_error "")))
  /\ (forall s,
        pattern_names (s ++ ",") = (pattern_names s ++ [""])%list
        /\ forallb known (pattern_names (s ++ ",")) = false
        /\ exists before bad after,
             pattern_names (s ++ ",") = (before ++ bad :: after)%list
             /\ forallb known before = true
             /\ known bad = false
             /\ forall w,
                  run (Args name n (Some (s ++ ","))) w
                  = (inl (SystemExit 1), printed w (pattern_error bad))).
Proof.
  intros Hn. split; [|split].
  - intros k w. rewrite run_positive by exact Hn.
    unfold dispatch. cbn [pattern]. unfold pattern_names.
    rewrite (split_comma_single _ (no_comma_spaces (S k))).
    cbn [map]. rewrite strip_spaces. reflexivity.
  - intros s w. rewrite run_positive by exact Hn. reflexivity.
  - intros s.
    assert (Hk : forallb known (pattern_names (s ++ ",")) = false).
    { unfold pattern_names. rewrite split_comma_trailing, map_app, forallb_app.
      apply andb_false_iff. now right. }
    split; [|split; [exact Hk|]].
    { unfold pattern_names. now rewrite split_comma_trailing, map_app. }
    assert (Hne : s ++ "," <> "") by (destruct s; discriminate).
    destruct (dispatch_unknown_pattern (Args name n (Some (s ++ ","))) _ eq_refl Hne Hk)
      as (before & bad & after & Hsplit & Hbefore & Hbad & Hrun).
    exists before, bad, after. repeat split; try assumption.
    intros w. now rewrite run_positive by exact Hn.
Qed.

Lemma empty_token_rejected_witness :
  run (Args "light" 1 (Some (spaces 3))) fresh
  = (inl (SystemExit 1), printed fresh (pattern_error ""))
  /\ pattern_names ("light,heavy" ++ ",") = (pattern_names "light,heavy" ++ [""])%list.
Proof.
  split.
  - apply (proj1 (empty_token_rejected "light" 1 ltac:(lia)) 2%nat fresh).
  - apply (proj1 (proj2 (proj2 (empty_token_rejected "light" 1 ltac:(lia)))
                    "light,heavy")).
Defined.

(** ** Flushing *)





(** ** Single intensity mode from the command line *)

(** X12.  With no pattern (or the empty one), an accepted [--intensity] and
    a count of 1 or more, [main] is [vibrate] on the intensity that bears
    the given name, the given number of times; the flags left out stand
    for medium and for 1. *)
Theorem main_single_mode (cl : cmdline) :
  truthy (given_pattern cl) = false ->
  known (intensity_given cl) = true ->
  1 <= count_given cl ->
  exists i,
    intensity_name i = intensity_given cl
    /\ (forall w, main cl w = vibrate i (count_given cl) w)
    /\ (given_intensity cl = None -> i = MEDIUM)
    /\ (given_count cl = None -> count_given cl = 1).
Proof.
  intros Ht Hk Hc. destruct (subscript_known _ Hk) as (i & Hname & Hi).
  exists i. split; [exact Hname|]. split; [|split].
  - intros w. rewrite main_accepted by exact Hk.
    rewrite run_positive by exact Hc.
    now apply dispatch_single.
  - intros Hnone. unfold intensity_given in Hname. rewrite Hnone in Hname.
    now destruct i.
  - intros Hnone. unfold count_given. now rewrite Hnone.
Qed.

Lemma main_single_mode_witness :
  exists i,
    intensity_name i = "medium"
    /\ (forall w, main (Cmdline None None None) w = vibrate i 1 w)
    /\ (@None string = None -> i = MEDIUM)
    /\ (@None Z = None -> 1 = 1).
Proof.
  apply (main_single_mode (Cmdline None None None));
    [reflexivity | reflexivity | unfold count_given; simpl; lia].
Defined.
